(** * denoue: a deferred, JSON-structured logger

    A shallow embedding of the Go package [denoue] (files [structs.go],
    [stringutil.go] and [denoue.go]) together with the properties of its
    document model, its serializer and its aggregator [JLog].

    The repository holds [stringutil.go] twice. The two files have the
    same constants, the same [JDict.String], [JGroup.String] and
    [JPair.String], and differ in [JArray.String]: one writes the raw and
    the escaped values through a [strings.Builder] ([JArray_String] here),
    the other concatenates the raw values and trims the last separator
    ([JArray_String_trim] here). Only one of the two can be compiled in
    the package, so everything that serializes an array through the
    [JObject] interface ([JObject_String], [JDict_String], [Print],
    [PrettyPrint]) takes the [JArray.String] of the package as its
    argument [arr], and the properties are stated for every [arr] or for
    each of the two.

    Conventions of the embedding:
    - a Go [string] is a sequence of bytes, here a [string] (a list of
      8-bit [ascii]); a [[]byte] is a [list ascii];
    - a Go [map[string]JObject] is a [gmap string JObject];
    - a Go run-time panic is the [Panic] arm of [result];
    - the [JObject] interface, implemented by [JPair], [JArray] and
      [JGroup], is an inductive type with one constructor per implementer. *)

From Stdlib Require Import String Ascii.
From stdpp Require Import gmap strings list fin_maps sorting pretty.

Local Open Scope string_scope.
Local Open Scope list_scope.
Set Warnings "-register-all".

(** ** Panics *)

Inductive result (A : Type) : Type :=
  | Ok (a : A)
  | Panic (msg : string).
Arguments Ok {A} a.
Arguments Panic {A} msg.

#[global] Instance result_ret : MRet result := fun _ a => Ok a.
#[global] Instance result_bind : MBind result := fun _ _ f r =>
  match r with
  | Ok a => f a
  | Panic msg => Panic msg
  end.

(** [for _, x := range l { st = body(st, x) }] where the body may panic. *)
Fixpoint range_loop {A S : Type} (body : S -> A -> result S) (l : list A) (st : S)
  : result S :=
  match l with
  | [] => Ok st
  | x :: l' => st' ← body st x; range_loop body l' st'
  end.

(** ** Constants of [stringutil.go] *)

Definition DEFAULT_TIME_LAYOUT : string := "2006-01-02 3:04:05.000pm Z07".

Definition INFO : string := "INFO".
Definition WARN : string := "WARN".
Definition ERROR : string := "ERROR".

Definition LEVEL_KEY : string := "level".
Definition TIME_KEY : string := "time".
Definition MSG_KEY : string := "msgs".
Definition ERR_KEY : string := "error".

(** The double-quote byte (code 34) and the backslash byte (code 92). *)
Definition quote_byte : ascii := "034"%char.
Definition backslash_byte : ascii := "092"%char.

Definition OC : string := "{".
Definition CC : string := "}".
Definition OB : string := "[".
Definition CB : string := "]".
Definition QM : string := String quote_byte EmptyString.

(** [wrap(s, tokens...)]: one token goes on both sides, two tokens go one
    on each side, any other number of tokens panics. *)
Definition wrap (s : string) (tokens : list string) : result string :=
  match tokens with
  | [t] => Ok (t +:+ s +:+ t)
  | [t0; t1] => Ok (t0 +:+ s +:+ t1)
  | _ => Panic "cannot parse"
  end.

(** [in(vals, s)] *)
Fixpoint in_ (vals : list string) (s : string) : bool :=
  match vals with
  | [] => false
  | v :: vals' => if String.eqb s v then true else in_ vals' s
  end.

(** ** The escaper of [structs.go] *)

Definition escBuf := list ascii.

(** [(b *escBuf) WriteEscaped(s)]: the loop over the bytes of [s], each
    appended to the buffer, a backslash appended first when the byte is a
    double quote. *)
Fixpoint WriteEscaped (b : escBuf) (s : string) : escBuf :=
  match s with
  | EmptyString => b
  | String c s' =>
      let b1 := if Ascii.eqb c quote_byte then b ++ [backslash_byte] else b in
      WriteEscaped (b1 ++ [c]) s'
  end.

Definition MakeSafe (s : string) : string :=
  let buf : escBuf := [] in
  string_of_list_ascii (WriteEscaped buf s).

(** The escaper as the specification words it: every double quote preceded
    by a backslash, every other byte passed through. *)
Fixpoint escape_spec (s : string) : string :=
  match s with
  | EmptyString => EmptyString
  | String c s' =>
      if Ascii.eqb c quote_byte
      then String backslash_byte (String c (escape_spec s'))
      else String c (escape_spec s')
  end.

Fixpoint occurs (c : ascii) (s : string) : bool :=
  match s with
  | EmptyString => false
  | String c' s' => if Ascii.eqb c' c then true else occurs c s'
  end.

(** ** The document model of [structs.go] *)

Record JPair : Type := NewJPair { PairKey : string; PairVal : string }.

Record JArray : Type := MkJArray {
  Key : string;
  Vals : list string;
  ByteVals : list escBuf
}.

Definition NewJArray (key : string) : JArray :=
  {| Key := key; Vals := []; ByteVals := [] |}.

(** [JObject]: the interface implemented by [JPair], [JArray] and [JGroup].
    A [JGroup] is a key and a [JDict], and a [JDict] is the map of its
    objects. *)
Inductive JObject : Type :=
  | ObjPair (p : JPair)
  | ObjArray (a : JArray)
  | ObjGroup (key : string) (dict : gmap string JObject).

Abbreviation JDict := (gmap string JObject).

Definition NewJDict : JDict := ∅.
Definition NewJGroup (key : string) (dict : JDict) : JObject := ObjGroup key dict.

Definition GetKey (o : JObject) : string :=
  match o with
  | ObjPair p => PairKey p
  | ObjArray a => Key a
  | ObjGroup key _ => key
  end.

Definition JDict_Set (d : JDict) (elem : JObject) : JDict :=
  <[GetKey elem := elem]> d.

Definition JDict_SetPair (d : JDict) (key val : string) : JDict :=
  let pair := ObjPair (NewJPair key val) in
  <[GetKey pair := pair]> d.

(** [(a *JArray) AddSafe(format, args...)]: the format and the arguments
    are escaped into one buffer, which joins the escaped bucket. *)
Definition AddSafe (a : JArray) (format : string) (args : list string) : JArray :=
  let buf : escBuf := WriteEscaped [] format in
  let buf := fold_left WriteEscaped args buf in
  {| Key := Key a; Vals := Vals a; ByteVals := ByteVals a ++ [buf] |}.

(** [(a *JArray) Add(val)]: a raw value, not escaped. *)
Definition Add (a : JArray) (val : string) : JArray :=
  {| Key := Key a; Vals := Vals a ++ [val]; ByteVals := ByteVals a |}.

(** ** The serializer of [stringutil.go] *)

(** [fmt.Sprintf("%v: %v", a, b)] on two strings. *)
Definition Sprintf_colon (a b : string) : string := a +:+ ": " +:+ b.

(** The slice expression [s[:hi]] on a string: a run-time panic when [hi]
    is negative or exceeds the length, with the text of Go's bounds
    error. *)
Definition slice_to (s : string) (hi : Z) : result string :=
  if (hi <? 0)%Z then
    Panic ("runtime error: slice bounds out of range [:" +:+ pretty hi +:+ "]")
  else if (Z.of_nat (String.length s) <? hi)%Z then
    Panic ("runtime error: slice bounds out of range [:" +:+ pretty hi +:+
           "] with length " +:+ pretty (String.length s))
  else Ok (String.substring 0 (Z.to_nat hi) s).

(** What [fmt] prints for an operand whose [String] method panicked: the
    panic is recovered and rendered in place. *)
Definition fmt_recovered (msg : string) : string :=
  "%!v(PANIC=String method: " +:+ msg +:+ ")".

Definition Sprint_Stringer (r : result string) : string :=
  match r with
  | Ok s => s
  | Panic msg => fmt_recovered msg
  end.

(** [(p JPair) String()] *)
Definition JPair_String (p : JPair) : result string :=
  k ← wrap (PairKey p) [QM];
  v ← wrap (PairVal p) [QM];
  Ok (Sprintf_colon k v).

(** The body of the loop over [a.Vals] in [(a JArray) String()]: the
    state is the builder and the [first] flag. *)
Definition vals_body (st : string * bool) (val : string) : result (string * bool) :=
  let '(sb, first) := st in
  if first then
    w ← wrap val [QM]; Ok (sb +:+ w, false)
  else
    let sb := sb +:+ ", " in
    w ← wrap val [QM]; Ok (sb +:+ w, first).

(** The body of the loop over [a.ByteVals]. *)
Definition bytes_body (st : string * bool) (b : escBuf) : result (string * bool) :=
  let '(sb, first) := st in
  if first then
    Ok (((sb +:+ QM) +:+ string_of_list_ascii b) +:+ QM, false)
  else
    let sb := sb +:+ ", " in
    Ok (((sb +:+ QM) +:+ string_of_list_ascii b) +:+ QM, first).

(** [(a JArray) String()], written with a [strings.Builder] and a [first]
    flag: the raw values, then the escaped values. *)
Definition JArray_String (a : JArray) : result string :=
  k ← wrap (Key a) [QM];
  let sb := "" +:+ k in
  let sb := sb +:+ ": " in
  let sb := sb +:+ OB in
  st ← range_loop vals_body (Vals a) (sb, true);
  st ← (if (0 <? length (ByteVals a))%nat
        then range_loop bytes_body (ByteVals a) st
        else Ok st);
  Ok (fst st +:+ CB).

(** The other [(a JArray) String()] of the repository: it concatenates the
    raw values, each followed by a separator, and trims the last
    separator. It does not read [ByteVals]. *)
Definition JArray_String_trim (a : JArray) : result string :=
  arr ← range_loop
          (fun arr val => w ← wrap val [QM]; Ok (arr +:+ (w +:+ ", ")))
          (Vals a) "";
  arr ← slice_to arr (Z.of_nat (String.length arr) - 2);
  arr ← wrap arr [OB; CB];
  key ← wrap (Key a) [QM];
  Ok (Sprintf_colon key arr).

Definition default_keys : list string := [TIME_KEY; LEVEL_KEY; ERR_KEY].

(** [sort.Strings]: ascending byte-wise lexicographic order. *)
Definition sort_Strings (l : list string) : list string :=
  merge_sort String.le l.

Section JDict_String.
(** The body of [(d JDict) String()], over the type [V] of the stored
    objects and their [String] method. *)
Context {V : Type} (String_ : V -> result string).

(** The first loop: the default keys that are present, in their fixed
    order. *)
Definition present_default_keys (objects : gmap string V) : list string :=
  fold_left
    (fun keys k => if decide (is_Some (objects !! k)) then keys ++ [k] else keys)
    default_keys [].

(** The second loop: the keys that are not default keys, in the order
    the map is ranged over (the enumeration of [map_to_list] stands for
    the order of Go's [range], which is unspecified). *)
Definition nonDefaultKeys (objects : gmap string V) : list string :=
  fold_left
    (fun acc k => if negb (in_ default_keys k) then acc ++ [k] else acc)
    (map fst (map_to_list objects)) [].

Definition JDict_keys (objects : gmap string V) : list string :=
  let keys := present_default_keys objects in
  let nonDefaultKeys := sort_Strings (nonDefaultKeys objects) in
  keys ++ nonDefaultKeys.

Definition JDict_String_with (objects : gmap string V) : result string :=
  let keys := JDict_keys objects in
  out ← range_loop
          (fun out k =>
             match objects !! k with
             | Some o => s ← String_ o; Ok (out +:+ (s +:+ ", "))
             | None =>
                 Panic "runtime error: invalid memory address or nil pointer dereference"
             end)
          keys "";
  body ← slice_to out (Z.of_nat (String.length out) - 2);
  wrap body [OC; CC].
End JDict_String.

(** [String()] of a [JObject], through the interface; [arr] is the
    [(a JArray) String()] of the package. A group prints its dictionary
    through [fmt.Sprintf], which recovers a panic of the dictionary's
    [String] method. The dictionary of a group is serialized from the
    strings of its objects ([JObject_String arr <$> dict]);
    [JDict_String_fmap] below shows this is [JDict_String] of the
    dictionary. *)
Fixpoint JObject_String (arr : JArray -> result string) (o : JObject)
  : result string :=
  match o with
  | ObjPair p => JPair_String p
  | ObjArray a => arr a
  | ObjGroup key dict =>
      k ← wrap key [QM];
      let d := JDict_String_with id (JObject_String arr <$> dict) in
      Ok (Sprintf_colon k (Sprint_Stringer d))
  end.

(** [(d JDict) String()] *)
Definition JDict_String (arr : JArray -> result string) (d : JDict)
  : result string :=
  JDict_String_with (JObject_String arr) d.

(** [(g JGroup) String()] *)
Definition JGroup_String (arr : JArray -> result string) (key : string) (dict : JDict)
  : result string :=
  k ← wrap key [QM];
  Ok (Sprintf_colon k (Sprint_Stringer (JDict_String arr dict))).

(** ** The aggregator of [denoue.go] *)

(** An [io.Writer] is known by its identity; what is written to it is
    recorded in the effects of a call. *)
Inductive Writer : Type :=
  | Stdout
  | Stderr
  | OtherWriter (id : nat).

(** The message of an [error] value. *)
Definition error := string.

(** What a call does to the outside world: a [Write] on a writer, the
    serialized record handed to the external pretty-printer, or a panic
    leaving the call. *)
Inductive effect : Type :=
  | Written (w : Writer) (bytes : string)
  | PrettyPrinted (json : string)
  | Panicked (msg : string).

(** The fields of [JLog]. [once] is the state of the [sync.Once] the
    logger points to: [true] when it has fired. The mutex [mu] does not
    appear in the sequential state; the section on locking below treats
    it. *)
Record JLog : Type := MkJLog {
  out : Writer;
  msgs : JArray;
  level : string;
  timeLayout : string;
  objects : gmap string JObject;
  once : bool
}.

Definition with_out (w : Writer) (j : JLog) : JLog :=
  MkJLog w (msgs j) (level j) (timeLayout j) (objects j) (once j).
Definition with_msgs (a : JArray) (j : JLog) : JLog :=
  MkJLog (out j) a (level j) (timeLayout j) (objects j) (once j).
Definition with_level (l : string) (j : JLog) : JLog :=
  MkJLog (out j) (msgs j) l (timeLayout j) (objects j) (once j).
Definition with_timeLayout (t : string) (j : JLog) : JLog :=
  MkJLog (out j) (msgs j) (level j) t (objects j) (once j).
Definition with_objects (o : gmap string JObject) (j : JLog) : JLog :=
  MkJLog (out j) (msgs j) (level j) (timeLayout j) o (once j).
Definition with_once (b : bool) (j : JLog) : JLog :=
  MkJLog (out j) (msgs j) (level j) (timeLayout j) (objects j) b.

Definition New : JLog :=
  {| out := Stdout;
     msgs := {| Key := MSG_KEY; Vals := []; ByteVals := [] |};
     level := INFO;
     objects := ∅;
     once := false;
     timeLayout := DEFAULT_TIME_LAYOUT |}.

Definition key_not_found : error := "key not found".
Definition could_not_cast (k : string) : error :=
  "could not cast object from key '" +:+ k +:+ "'".

(** [(j *JLog) Get(k)] *)
Definition Get (j : JLog) (k : string) : JLog * (JObject + error) :=
  match objects j !! k with
  | None => (j, inr key_not_found)
  | Some obj => (j, inl obj)
  end.

(** The type parameter of [Get[T KeyVal]]. *)
Inductive KeyVal : Type := TJPair | TJArray | TJGroup.

Definition dynamic_type (o : JObject) : KeyVal :=
  match o with
  | ObjPair _ => TJPair
  | ObjArray _ => TJArray
  | ObjGroup _ _ => TJGroup
  end.

#[global] Instance KeyVal_eq_dec : EqDecision KeyVal.
Proof. solve_decision. Defined.

(** [Get[T](j, k)]: the lookup, then the type assertion [obj.(T)]. *)
Definition GetT (T : KeyVal) (j : JLog) (k : string) : JLog * (JObject + error) :=
  match objects j !! k with
  | None => (j, inr key_not_found)
  | Some obj =>
      if decide (dynamic_type obj = T) then (j, inl obj)
      else (j, inr (could_not_cast k))
  end.

(** [(j *JLog) Pop(k)] *)
Definition Pop (j : JLog) (k : string) : JLog * (JObject + error) :=
  match objects j !! k with
  | None => (j, inr key_not_found)
  | Some obj => (with_objects (delete k (objects j)) j, inl obj)
  end.

(** [(j *JLog) SetPair(key, val)] *)
Definition SetPair (j : JLog) (key val : string) : JLog :=
  let pair := ObjPair (NewJPair key val) in
  with_objects (<[GetKey pair := pair]> (objects j)) j.

(** [(j *JLog) Set(elem)] *)
Definition Set_ (j : JLog) (elem : JObject) : JLog :=
  with_objects (<[GetKey elem := elem]> (objects j)) j.

Definition SetOutput (j : JLog) (w : Writer) : JLog := with_out w j.
Definition SetTime (j : JLog) (layout : string) : JLog := with_timeLayout layout j.

(** [(j *JLog) Reset()]: a new [sync.Once]. *)
Definition Reset (j : JLog) : JLog := with_once false j.

(** [j.once.Do(f)]: when the [Once] has fired nothing happens and the
    result is [None]; otherwise the [Once] fires and the body runs, its
    result under [Some]. *)
Definition once_Do {A : Type} (j : JLog) (f : JLog -> A) : JLog * option A :=
  if once j then (j, None) else (with_once true j, Some (f j)).

Definition newline : string := String "010"%char EmptyString.

(** [(j *JLog) Info(format, args...)] *)
Definition Info (j : JLog) (format : string) (args : list string) : JLog :=
  if (0 <? length args)%nat then with_msgs (AddSafe (msgs j) format args) j
  else with_msgs (Add (msgs j) format) j.

(** [(j *JLog) Warn(format, args...)] *)
Definition Warn (j : JLog) (format : string) (args : list string) : JLog :=
  let j := if decide (level j ≠ ERROR) then with_level WARN j else j in
  if (0 <? length args)%nat then with_msgs (AddSafe (msgs j) format args) j
  else with_msgs (Add (msgs j) format) j.

(** [(j *JLog) Error(err)], for an [err] that is not nil. *)
Definition Error (j : JLog) (err : error) : JLog :=
  let j := with_level ERROR j in
  let pair := ObjPair (NewJPair ERR_KEY (MakeSafe err)) in
  with_objects (<[GetKey pair := pair]> (objects j)) j.

Definition LogFunc := error -> list string -> string * list string * list JObject.

(** [(j *JLog) Log(f, err, args...)] *)
Definition Log (j : JLog) (f : LogFunc) (err : error) (args : list string) : JLog :=
  let '(lvl, ms, objs) := f err args in
  let j := with_level lvl j in
  let j := with_msgs {| Key := Key (msgs j); Vals := Vals (msgs j) ++ ms;
                        ByteVals := ByteVals (msgs j) |} j in
  fold_left (fun j obj => with_objects (<[GetKey obj := obj]> (objects j)) j) objs j.

Section Emission.
(** [time.Now()] is an input of the calls that emit; [Format] stands for
    [time.Time.Format]. *)
Context {Instant : Type}.
(** [arr] is the [(a JArray) String()] of the package. *)
Context (arr : JArray -> result string).
Context (Format : Instant -> string -> string).

(** [for _, elem := range j.objects { dict.Set(elem) }] *)
Definition set_all (objs : gmap string JObject) (dict : JDict) : JDict :=
  map_fold (fun _ elem dict => JDict_Set dict elem) dict objs.

(** The dictionary [Print] has built when it reaches [dict.String()]. *)
Definition Print_dict (now : Instant) (j : JLog) : JDict :=
  let ts := Format now (timeLayout j) in
  let dict := NewJDict in
  let dict := JDict_SetPair dict TIME_KEY ts in
  let dict := JDict_SetPair dict LEVEL_KEY (level j) in
  let dict := JDict_Set dict (ObjArray (msgs j)) in
  set_all (objects j) dict.

(** [(j *JLog) Print()] *)
Definition Print (now : Instant) (j : JLog) : JLog * option (list effect) :=
  once_Do j (fun j =>
    let ts := Format now (timeLayout j) in
    let dict := NewJDict in
    let dict := JDict_SetPair dict TIME_KEY ts in
    let dict := JDict_SetPair dict LEVEL_KEY (level j) in
    if (0 <? length (Vals (msgs j)))%nat then
      let dict := JDict_Set dict (ObjArray (msgs j)) in
      let dict := set_all (objects j) dict in
      match JDict_String arr dict with
      | Ok s => [Written (out j) (s +:+ newline)]
      | Panic msg => [Panicked msg]
      end
    else []).

(** [(j *JLog) PrettyPrint()]: the serialized dictionary goes to a
    temporary file and from there through the external command [jq] to
    standard output. The command is outside the model: the effect records
    the text handed to it. *)
Definition PrettyPrint (now : Instant) (j : JLog) : JLog * option (list effect) :=
  once_Do j (fun j =>
    let ts := Format now (timeLayout j) in
    let dict := NewJDict in
    let dict := JDict_SetPair dict TIME_KEY ts in
    let dict := JDict_SetPair dict LEVEL_KEY (level j) in
    let dict :=
      if (0 <? length (Vals (msgs j)))%nat
      then JDict_Set dict (ObjArray (msgs j)) else dict in
    let dict := set_all (objects j) dict in
    match JDict_String arr dict with
    | Ok s => [PrettyPrinted s]
    | Panic msg => [Panicked msg]
    end).

(** The calls of the [JLogger] interface, and [Get[T]]. *)
Inductive op : Type :=
  | OpGet (k : string)
  | OpGetT (T : KeyVal) (k : string)
  | OpPop (k : string)
  | OpSetPair (key val : string)
  | OpSet (elem : JObject)
  | OpSetOutput (w : Writer)
  | OpSetTime (layout : string)
  | OpPrint (now : Instant)
  | OpReset
  | OpPrettyPrint (now : Instant)
  | OpInfo (format : string) (args : list string)
  | OpWarn (format : string) (args : list string)
  | OpError (err : error)
  | OpLog (f : LogFunc) (err : error) (args : list string).

(** One call: the next state and, for [Print] and [PrettyPrint], what
    [once.Do] returned. *)
Definition step (j : JLog) (o : op) : JLog * option (list effect) :=
  match o with
  | OpGet k => (fst (Get j k), None)
  | OpGetT T k => (fst (GetT T j k), None)
  | OpPop k => (fst (Pop j k), None)
  | OpSetPair key val => (SetPair j key val, None)
  | OpSet elem => (Set_ j elem, None)
  | OpSetOutput w => (SetOutput j w, None)
  | OpSetTime layout => (SetTime j layout, None)
  | OpPrint now => Print now j
  | OpReset => (Reset j, None)
  | OpPrettyPrint now => PrettyPrint now j
  | OpInfo format args => (Info j format args, None)
  | OpWarn format args => (Warn j format args, None)
  | OpError err => (Error j err, None)
  | OpLog f err args => (Log j f err args, None)
  end.

(** A sequence of calls: the final state and, in order, the effects of
    each emission body that ran. *)
Fixpoint run (j : JLog) (ops : list op) : JLog * list (list effect) :=
  match ops with
  | [] => (j, [])
  | o :: ops' =>
      let '(j1, r) := step j o in
      let '(j2, rs) := run j1 ops' in
      (j2, match r with Some effs => effs :: rs | None => rs end)
  end.

Definition is_emit (o : op) : bool :=
  match o with OpPrint _ | OpPrettyPrint _ => true | _ => false end.
Definition is_reset (o : op) : bool :=
  match o with OpReset => true | _ => false end.
Definition is_record (o : op) : bool :=
  match o with OpInfo _ _ | OpWarn _ _ | OpError _ => true | _ => false end.
End Emission.

(** ** Locking: which calls hold [j.mu] while they touch the logger

    Each method is read as the sequence of its lock operations and of its
    accesses to the fields of the logger and to the writer, on the path
    that reaches the most statements. [defer j.mu.Unlock()] is the [Unlock]
    that closes the sequence. [Call] is code of the caller that a method
    runs while it holds the mutex: the [LogFunc] given to [Log], the
    [Error] method of the error given to [Error], the [GetKey] method of
    the objects given to [Set] and answered to [Log]. The step of a [Call]
    is that of a call that returns and leaves the mutex alone; what such
    code does to the logger is its own and is not part of the method. *)
Module Locking.

Inductive field : Type :=
  | F_out | F_msgs | F_level | F_timeLayout | F_objects | F_once.

Inductive action : Type :=
  | Lock
  | Unlock
  | Read (f : field)
  | Write (f : field)
  | SinkWrite
  | Call.

Inductive method : Type :=
  | M_Get | M_GetT | M_Pop | M_SetPair | M_Set | M_SetOutput | M_SetTime
  | M_Reset | M_Print | M_PrettyPrint | M_Info | M_Warn | M_Error | M_Log.

Definition body (m : method) : list action :=
  match m with
  | M_Get => [Lock; Read F_objects; Unlock]
  | M_GetT => [Read F_objects]
  | M_Pop => [Lock; Read F_objects; Write F_objects; Unlock]
  | M_SetPair => [Lock; Write F_objects; Unlock]
  | M_Set => [Lock; Call; Write F_objects; Unlock]
  | M_SetOutput => [Lock; Write F_out; Unlock]
  | M_SetTime => [Lock; Write F_timeLayout; Unlock]
  | M_Reset => [Write F_once]
  | M_Print =>
      [Read F_once; Read F_timeLayout; Read F_level; Read F_msgs;
       Read F_objects; Read F_out; SinkWrite]
  | M_PrettyPrint =>
      [Read F_once; Read F_timeLayout; Read F_level; Read F_msgs;
       Read F_objects]
  | M_Info => [Lock; Read F_msgs; Write F_msgs; Unlock]
  | M_Warn => [Lock; Read F_level; Write F_level; Read F_msgs; Write F_msgs; Unlock]
  | M_Error => [Lock; Write F_level; Call; Write F_objects; Unlock]
  | M_Log =>
      [Lock; Call; Write F_level; Read F_msgs; Write F_msgs; Call;
       Write F_objects; Unlock]
  end.

Definition is_access (a : action) : bool :=
  match a with Lock | Unlock => false | _ => true end.

(** Every access of the sequence lies between a [Lock] and its
    [Unlock]; [locked] says whether the lock is held on entry. *)
Fixpoint guarded (locked : bool) (acts : list action) : bool :=
  match acts with
  | [] => negb locked
  | Lock :: acts' => negb locked && guarded true acts'
  | Unlock :: acts' => locked && guarded false acts'
  | _ :: acts' => locked && guarded locked acts'
  end.

(** Threads running one method each on the same logger. [holder] is the
    thread that holds [j.mu]; [trace] lists the operations done so far,
    oldest first, each with its thread. *)
Record config : Type := MkConfig {
  holder : option nat;
  threads : list (list action);
  trace : list (nat * action)
}.

Definition start (ms : list method) : config :=
  {| holder := None; threads := map body ms; trace := [] |}.

(** Thread [t] does its next operation; [None] when it has none or is
    blocked on the mutex. *)
Definition sched_step (c : config) (t : nat) : option config :=
  match threads c !! t with
  | Some (a :: rest) =>
      let c' h := {| holder := h; threads := <[t := rest]> (threads c);
                     trace := trace c ++ [(t, a)] |} in
      match a with
      | Lock =>
          match holder c with
          | None => Some (c' (Some t))
          | Some _ => None
          end
      | Unlock =>
          if decide (holder c = Some t) then Some (c' None) else None
      | _ => Some (c' (holder c))
      end
  | _ => None
  end.

Fixpoint sched_run (c : config) (schedule : list nat) : option config :=
  match schedule with
  | [] => Some c
  | t :: schedule' =>
      match sched_step c t with
      | Some c' => sched_run c' schedule'
      | None => None
      end
  end.

(** An access by one thread while another thread holds the mutex. *)
Fixpoint overlap (h : option nat) (tr : list (nat * action)) : bool :=
  match tr with
  | [] => false
  | (t, Lock) :: tr' => overlap (Some t) tr'
  | (t, Unlock) :: tr' => overlap None tr'
  | (t, _) :: tr' =>
      match h with
      | Some t' => if decide (t = t') then overlap h tr' else true
      | None => overlap h tr'
      end
  end.

(** The thread that holds the mutex after the operations of a trace. *)
Fixpoint holder_after (h : option nat) (tr : list (nat * action)) : option nat :=
  match tr with
  | [] => h
  | (t, Lock) :: tr' => holder_after (Some t) tr'
  | (t, Unlock) :: tr' => holder_after None tr'
  | _ :: tr' => holder_after h tr'
  end.

(** What holds of every configuration that threads running guarded
    methods can reach: no overlap so far, the recorded holder is the one
    the trace gives, and what is left of each thread is guarded. *)
Definition inv (c : config) : Prop :=
  overlap None (trace c) = false /\
  holder_after None (trace c) = holder c /\
  forall (t : nat) (acts : list action),
    threads c !! t = Some acts ->
    guarded (bool_decide (holder c = Some t)) acts = true.

Definition all_methods : list method :=
  [M_Get; M_GetT; M_Pop; M_SetPair; M_Set; M_SetOutput; M_SetTime;
   M_Reset; M_Print; M_PrettyPrint; M_Info; M_Warn; M_Error; M_Log].

End Locking.


(** ** Vocabulary of the statements *)

(** A string between double quotes. *)
Definition quoted (s : string) : string := QM +:+ s +:+ QM.

(** The elements after the first one, each behind its separator. *)
Fixpoint tail_items (l : list string) : string :=
  match l with
  | [] => ""
  | x :: l' => ", " +:+ x +:+ tail_items l'
  end.

(** The elements [JArray_String] writes, in order: the raw values, then
    the escaped values, each between double quotes. *)
Definition JArray_elements (a : JArray) : list string :=
  map quoted (Vals a) ++ map (fun b => quoted (string_of_list_ascii b)) (ByteVals a).

(** The two ways of adding to an array, and a sequence of them applied in
    order. *)
Inductive insertion : Type :=
  | IAdd (val : string)
  | IAddSafe (format : string) (args : list string).

Definition insert1 (a : JArray) (i : insertion) : JArray :=
  match i with
  | IAdd val => Add a val
  | IAddSafe format args => AddSafe a format args
  end.

Definition raw_of (i : insertion) : option string :=
  match i with IAdd val => Some val | IAddSafe _ _ => None end.

Definition escaped_of (i : insertion) : option string :=
  match i with
  | IAdd _ => None
  | IAddSafe format args => Some (MakeSafe format +:+ String.concat "" (map MakeSafe args))
  end.

(** The elements of a list, each followed by its separator: what the
    loops that trim the last separator have built before they trim. *)
Fixpoint lead_items (l : list string) : string :=
  match l with
  | [] => ""
  | x :: l' => (x +:+ ", ") +:+ lead_items l'
  end.

(** The string [fmt] prints for an object: its [String()], or the
    rendering of the panic. *)
Definition JObject_render (arr : JArray -> result string) (o : JObject) : string :=
  Sprint_Stringer (JObject_String arr o).

(** The string of the entry of [d] under [k]. *)
Definition entry_string (arr : JArray -> result string) (d : JDict) (k : string)
  : string :=
  from_option (JObject_render arr) "" (d !! k).

(** The dictionary of the ordering example: keys [error], [level], [time],
    [zebra] and [apple], set in that order. *)
Definition example_dict : JDict :=
  JDict_SetPair
    (JDict_SetPair
       (JDict_SetPair
          (JDict_SetPair (JDict_SetPair NewJDict "error" "e") "level" "l")
          "time" "t")
       "zebra" "z")
    "apple" "a".

(** The place of a level in the hierarchy [INFO] < [WARN] < [ERROR]. *)
Definition level_rank (l : string) : nat :=
  if decide (l = ERROR) then 2
  else if decide (l = WARN) then 1
  else 0.

Definition is_info_warn {Instant : Type} (o : @op Instant) : bool :=
  match o with OpInfo _ _ | OpWarn _ _ => true | _ => false end.

(** Every object of the map is stored under its own key. *)
Definition objects_wf (m : gmap string JObject) : Prop :=
  map_Forall (fun k o => GetKey o = k) m.

(** A clock for the examples: the time is its own rendering. *)
Definition example_Format (now : string) (layout : string) : string := now.

(** The logger of the examples: the time set by hand, two messages. *)
Definition example_ops : list (@op string) :=
  [OpSetPair TIME_KEY "2023-08-10 9:00:41.553pm -04";
   OpInfo "some info" [];
   OpWarn "this is a warning" [];
   OpInfo "some more info" []].

Definition example_log : JLog :=
  fst (run JArray_String example_Format New example_ops).

(** The strings of the entries of [d] under [keys], asked for in that
    order through the [String] method [S]; the first method that panics
    ends the walk with its panic. *)
Fixpoint entries_in_order (S : JObject -> result string) (d : JDict)
    (keys : list string) : result (list string) :=
  match keys with
  | [] => Ok []
  | k :: keys' =>
      match d !! k with
      | Some o => s ← S o; es ← entries_in_order S d keys'; Ok (s :: es)
      | None =>
          Panic "runtime error: invalid memory address or nil pointer dereference"
      end
  end.

(** The [String] method [arr] returns on every array that [d] holds as an
    entry (arrays deeper down, in the dictionary of a group, do not
    matter: a group prints through [fmt]). *)
Definition arrays_return (arr : JArray -> result string) (d : JDict) : Prop :=
  forall (k : string) (a : JArray),
    d !! k = Some (ObjArray a) -> exists s : string, arr a = Ok s.

(** What [Print] does with the result of [dict.String()]: one write of
    the string and a newline, or the panic. *)
Definition write_or_panic (w : Writer) (r : result string) : list effect :=
  match r with
  | Ok s => [Written w (s +:+ newline)]
  | Panic msg => [Panicked msg]
  end.

(** What [PrettyPrint] does with the result of [dict.String()]. *)
Definition render_or_panic (r : result string) : list effect :=
  match r with
  | Ok s => [PrettyPrinted s]
  | Panic msg => [Panicked msg]
  end.

(** The dictionary [PrettyPrint] has built when it reaches
    [dict.String()]: as in [Print], but the messages are set only when the
    raw bucket has one. *)
Definition PrettyPrint_dict {Instant : Type} (Format : Instant -> string -> string)
    (now : Instant) (j : JLog) : JDict :=
  let ts := Format now (timeLayout j) in
  let dict := NewJDict in
  let dict := JDict_SetPair dict TIME_KEY ts in
  let dict := JDict_SetPair dict LEVEL_KEY (level j) in
  let dict :=
    if (0 <? length (Vals (msgs j)))%nat
    then JDict_Set dict (ObjArray (msgs j)) else dict in
  set_all (objects j) dict.

(** A dictionary with one entry, an array with no value. *)
Definition example_tags : JDict := JDict_Set NewJDict (ObjArray (NewJArray "tags")).

(** ** Vocabulary of the further properties *)

(** Every double quote of the string has a backslash right before it;
    [prev] says whether the byte before the string is a backslash. *)
Fixpoint quotes_escaped_from (prev : bool) (s : string) : bool :=
  match s with
  | EmptyString => true
  | String c s' =>
      (if Ascii.eqb c quote_byte then prev else true)
      && quotes_escaped_from (Ascii.eqb c backslash_byte) s'
  end.

Definition quotes_escaped (s : string) : bool := quotes_escaped_from false s.

Fixpoint count_byte (c : ascii) (s : string) : nat :=
  match s with
  | EmptyString => 0
  | String c' s' => (if Ascii.eqb c' c then 1 else 0) + count_byte c s'
  end.

(** [(d JDict) String()] with the order of [for k := range d.objects]
    given: [range] lists the keys of the map in the order the loop meets
    them. *)
Definition nonDefaultKeys_from (range : list string) : list string :=
  fold_left
    (fun acc k => if negb (in_ default_keys k) then acc ++ [k] else acc)
    range [].

Definition JDict_keys_from (range : list string) (d : JDict) : list string :=
  let keys := present_default_keys d in
  let nonDefaultKeys := sort_Strings (nonDefaultKeys_from range) in
  keys ++ nonDefaultKeys.

Definition JDict_String_from (arr : JArray -> result string)
    (range : list string) (d : JDict) : result string :=
  let keys := JDict_keys_from range d in
  out ← range_loop
          (fun out k =>
             match d !! k with
             | Some o => s ← JObject_String arr o; Ok (out +:+ (s +:+ ", "))
             | None =>
                 Panic "runtime error: invalid memory address or nil pointer dereference"
             end)
          keys "";
  body ← slice_to out (Z.of_nat (String.length out) - 2);
  wrap body [OC; CC].

(** The number of messages a call adds to the message array. *)
Definition messages_added {Instant : Type} (o : @op Instant) : nat :=
  match o with
  | OpInfo _ _ | OpWarn _ _ => 1
  | OpLog f err args => length (snd (fst (f err args)))
  | _ => 0
  end.

(** The last object of a list stored under a key, as the loop of [Log]
    leaves it in the map. *)
Fixpoint last_with_key (k : string) (objs : list JObject) (found : option JObject)
  : option JObject :=
  match objs with
  | [] => found
  | obj :: objs' =>
      last_with_key k objs' (if decide (GetKey obj = k) then Some obj else found)
  end.

(** A [LogFunc] for the examples: it answers [INFO], one message and one
    pair. *)
Definition example_LogFunc : LogFunc :=
  fun err args => (INFO, ["logged"], [ObjPair (NewJPair "caller" "program/file:32")]).

(** The recorded holder of the mutex is one of the threads. *)
Definition holder_valid (c : Locking.config) : Prop :=
  forall t : nat,
    Locking.holder c = Some t -> is_Some (Locking.threads c !! t).

(** The operations of a method when the code of the caller it runs calls
    a method of the same logger: the operations of the callee take the
    place of each [Call]. *)
Definition calling (callee acts : list Locking.action) : list Locking.action :=
  flat_map (fun a => match a with Locking.Call => callee | _ => [a] end) acts.

(** What is left of a thread that took the mutex and is on its way to
    take it again. *)
Definition relocking (c : Locking.config) (pre post : list Locking.action) : Prop :=
  Locking.threads c !! 0 = Some (Locking.Lock :: pre ++ Locking.Lock :: post) \/
  (Locking.holder c = Some 0 /\
   exists pre' : list Locking.action,
     pre' `suffix_of` pre /\ Locking.threads c !! 0 = Some (pre' ++ Locking.Lock :: post)).

(** Whether a call returned. *)
Definition is_ok {A : Type} (r : result A) : bool :=
  match r with Ok _ => true | Panic _ => false end.

(** Whether the [String] of an object that is an array returns. *)
Definition array_ok (arr : JArray -> result string) (o : JObject) : bool :=
  match o with
  | ObjArray a => is_ok (arr a)
  | _ => true
  end.
(** * Properties *)

(** ** Strings *)

Lemma append_nil_l (b : string) : "" +:+ b = b.
Proof. reflexivity. Qed.

Lemma append_cons (x : ascii) (a b : string) :
  String x a +:+ b = String x (a +:+ b).
Proof. reflexivity. Qed.

Lemma append_assoc (a b c : string) : (a +:+ b) +:+ c = a +:+ (b +:+ c).
Proof.
  induction a as [|x a IH]; [reflexivity|].
  by rewrite !append_cons, IH.
Qed.

Lemma append_empty_r (a : string) : a +:+ "" = a.
Proof.
  induction a as [|x a IH]; [reflexivity|].
  by rewrite append_cons, IH.
Qed.

Lemma length_append (a b : string) :
  String.length (a +:+ b) = (String.length a + String.length b)%nat.
Proof.
  induction a as [|x a IH]; [reflexivity|].
  rewrite append_cons. simpl. by rewrite IH.
Qed.

Lemma substring_prefix (a b : string) :
  String.substring 0 (String.length a) (a +:+ b) = a.
Proof.
  induction a as [|x a IH].
  - rewrite append_nil_l. destruct b; reflexivity.
  - rewrite append_cons. simpl. by rewrite IH.
Qed.

Lemma string_of_list_ascii_app (l1 l2 : list ascii) :
  string_of_list_ascii (l1 ++ l2) = string_of_list_ascii l1 +:+ string_of_list_ascii l2.
Proof.
  induction l1 as [|x l1 IH]; [reflexivity|].
  simpl. by rewrite append_cons, IH.
Qed.

(** ** The escaper *)

Lemma WriteEscaped_spec (s : string) (b : escBuf) :
  WriteEscaped b s = b ++ list_ascii_of_string (escape_spec s).
Proof.
  revert b. induction s as [|c s IH]; intros b; simpl.
  - by rewrite app_nil_r.
  - rewrite IH. destruct (Ascii.eqb c quote_byte); simpl;
      by rewrite <- ?List.app_assoc.
Qed.

Lemma MakeSafe_escape_spec (s : string) : MakeSafe s = escape_spec s.
Proof.
  unfold MakeSafe. rewrite WriteEscaped_spec. simpl.
  apply string_of_list_ascii_of_string.
Qed.

Lemma escape_spec_no_quote (s : string) :
  occurs quote_byte s = false -> escape_spec s = s.
Proof.
  induction s as [|c s IH]; simpl; [done|].
  destruct (Ascii.eqb c quote_byte); [done|].
  intros H. by rewrite IH.
Qed.

(** An escaped string never begins with a double quote. *)
Lemma escape_spec_head (s : string) (r : string) :
  escape_spec s <> String quote_byte r.
Proof.
  destruct s as [|c s]; simpl; [done|].
  destruct (Ascii.eqb c quote_byte) eqn:E; [done|].
  intros [= -> _]. by rewrite Ascii.eqb_refl in E.
Qed.

(** The escaper is injective on all strings: the inserted backslashes
    are those that stand before a double quote. *)
Lemma escape_spec_inj (s t : string) : escape_spec s = escape_spec t -> s = t.
Proof.
  revert t. induction s as [|c s IH]; intros [|d t]; simpl.
  - done.
  - destruct (Ascii.eqb d quote_byte); done.
  - destruct (Ascii.eqb c quote_byte); done.
  - destruct (Ascii.eqb c quote_byte) eqn:Ec, (Ascii.eqb d quote_byte) eqn:Ed.
    + apply Ascii.eqb_eq in Ec, Ed. intros [= H]. subst. f_equal. by apply IH.
    + apply Ascii.eqb_eq in Ec. subst c. intros [= <- H].
      symmetry in H. by apply escape_spec_head in H.
    + apply Ascii.eqb_eq in Ed. subst d. intros [= -> H].
      by apply escape_spec_head in H.
    + intros [= -> H]. f_equal. by apply IH.
Qed.

(** C7. For every string [s], [MakeSafe s] is [s] with a backslash put
    before every double quote and every other byte (a backslash too) left
    as it is; it is a total function; it is the identity on a string
    with no double quote; and it is injective on the strings with no
    backslash. *)
Theorem MakeSafe_escapes (s : string) :
  MakeSafe s = escape_spec s /\
  (occurs quote_byte s = false -> MakeSafe s = s) /\
  (forall t : string,
     occurs backslash_byte s = false -> occurs backslash_byte t = false ->
     MakeSafe s = MakeSafe t -> s = t).
Proof.
  split; [apply MakeSafe_escape_spec|]. split.
  - intros H. rewrite MakeSafe_escape_spec. by apply escape_spec_no_quote.
  - intros t _ _. rewrite !MakeSafe_escape_spec. apply escape_spec_inj.
Qed.

Lemma MakeSafe_escapes_witness :
  (occurs quote_byte "some error" = false /\
   occurs backslash_byte "some error" = false) /\
  MakeSafe "some error" = "some error" /\
  (MakeSafe "some error" = MakeSafe "some error" -> "some error" = "some error").
Proof.
  pose proof (MakeSafe_escapes "some error") as (_ & Hid & Hinj).
  split; [split; reflexivity|].
  split; [exact (Hid eq_refl)|].
  exact (Hinj "some error" eq_refl eq_refl).
Defined.

Example MakeSafe_quote_and_backslash :
  MakeSafe ("a" +:+ QM +:+ "\b") = "a\" +:+ QM +:+ "\b".
Proof. reflexivity. Qed.

(** ** Arrays *)

Lemma bind_Ok {A B : Type} (a : A) (f : A -> result B) : (Ok a ≫= f) = f a.
Proof. reflexivity. Qed.

Lemma range_loop_cons {A S : Type} (body : S -> A -> result S) x l st :
  range_loop body (x :: l) st = (body st x ≫= range_loop body l).
Proof. reflexivity. Qed.

Lemma wrap_one (s t : string) : wrap s [t] = Ok (t +:+ s +:+ t).
Proof. reflexivity. Qed.

Lemma wrap_two (s t0 t1 : string) : wrap s [t0; t1] = Ok (t0 +:+ s +:+ t1).
Proof. reflexivity. Qed.

Lemma tail_items_app (l1 l2 : list string) :
  tail_items (l1 ++ l2) = tail_items l1 +:+ tail_items l2.
Proof.
  induction l1 as [|x l1 IH]; [reflexivity|].
  simpl. by rewrite IH, !append_assoc.
Qed.

Lemma concat_cons (x : string) (l : list string) :
  String.concat ", " (x :: l) = x +:+ tail_items l.
Proof.
  revert x. induction l as [|y l IH]; intros x.
  - simpl. by rewrite append_empty_r.
  - change (String.concat ", " (x :: y :: l))
      with (x +:+ ", " +:+ String.concat ", " (y :: l)).
    by rewrite IH.
Qed.

Lemma concat_app (l1 l2 : list string) :
  l1 <> [] ->
  String.concat ", " (l1 ++ l2) = String.concat ", " l1 +:+ tail_items l2.
Proof.
  destruct l1 as [|x l1]; [done|]. intros _.
  rewrite <- app_comm_cons, !concat_cons, tail_items_app.
  by rewrite append_assoc.
Qed.

Lemma vals_body_true (sb val : string) :
  vals_body (sb, true) val = Ok (sb +:+ quoted val, false).
Proof. reflexivity. Qed.

Lemma vals_body_false (sb val : string) :
  vals_body (sb, false) val = Ok ((sb +:+ ", ") +:+ quoted val, false).
Proof. reflexivity. Qed.

Lemma bytes_body_true (sb : string) (b : escBuf) :
  bytes_body (sb, true) b
  = Ok (((sb +:+ QM) +:+ string_of_list_ascii b) +:+ QM, false).
Proof. reflexivity. Qed.

Lemma bytes_body_false (sb : string) (b : escBuf) :
  bytes_body (sb, false) b
  = Ok ((((sb +:+ ", ") +:+ QM) +:+ string_of_list_ascii b) +:+ QM, false).
Proof. reflexivity. Qed.

Lemma vals_loop_rest (l : list string) (sb : string) :
  range_loop vals_body l (sb, false) = Ok (sb +:+ tail_items (map quoted l), false).
Proof.
  revert sb. induction l as [|x l IH]; intros sb.
  - simpl. by rewrite append_empty_r.
  - rewrite range_loop_cons, vals_body_false, bind_Ok, IH.
    simpl map. simpl tail_items. unfold quoted. by rewrite !append_assoc.
Qed.

Lemma vals_loop_first (l : list string) (sb : string) :
  range_loop vals_body l (sb, true)
  = Ok (sb +:+ String.concat ", " (map quoted l), bool_decide (l = [])).
Proof.
  destruct l as [|x l].
  - simpl. by rewrite append_empty_r.
  - rewrite range_loop_cons, vals_body_true, bind_Ok, vals_loop_rest.
    rewrite map_cons, concat_cons. unfold quoted. by rewrite !append_assoc.
Qed.

Lemma bytes_loop_rest (l : list escBuf) (sb : string) :
  range_loop bytes_body l (sb, false)
  = Ok (sb +:+ tail_items (map (fun b => quoted (string_of_list_ascii b)) l), false).
Proof.
  revert sb. induction l as [|x l IH]; intros sb.
  - simpl. by rewrite append_empty_r.
  - rewrite range_loop_cons, bytes_body_false, bind_Ok, IH.
    simpl map. simpl tail_items. unfold quoted. by rewrite !append_assoc.
Qed.

Lemma bytes_loop_first (l : list escBuf) (sb : string) :
  range_loop bytes_body l (sb, true)
  = Ok (sb +:+ String.concat ", " (map (fun b => quoted (string_of_list_ascii b)) l),
        bool_decide (l = [])).
Proof.
  destruct l as [|x l].
  - simpl. by rewrite append_empty_r.
  - rewrite range_loop_cons, bytes_body_true, bind_Ok, bytes_loop_rest.
    rewrite map_cons, concat_cons. unfold quoted. by rewrite !append_assoc.
Qed.

(** The guard [len(a.ByteVals) > 0] changes nothing: the loop over no
    element is the identity. *)
Lemma bytes_guard (l : list escBuf) (st : string * bool) :
  (if (0 <? length l)%nat then range_loop bytes_body l st else Ok st)
  = range_loop bytes_body l st.
Proof. destruct l; reflexivity. Qed.

Lemma JArray_String_elements (a : JArray) :
  JArray_String a
  = Ok (quoted (Key a) +:+ ": " +:+ OB +:+
        String.concat ", " (JArray_elements a) +:+ CB).
Proof.
  unfold JArray_String, JArray_elements.
  rewrite wrap_one, bind_Ok, vals_loop_first, bind_Ok, bytes_guard.
  fold (quoted (Key a)). rewrite append_nil_l.
  destruct (Vals a) as [|v vs].
  - rewrite bool_decide_eq_true_2 by done.
    rewrite bytes_loop_first, bind_Ok. simpl fst.
    rewrite app_nil_l. simpl String.concat at 1.
    by rewrite append_empty_r, !append_assoc.
  - rewrite bool_decide_eq_false_2 by done.
    rewrite bytes_loop_rest, bind_Ok. simpl fst.
    rewrite concat_app by done.
    by rewrite !append_assoc.
Qed.

Lemma fold_WriteEscaped (args : list string) (b : escBuf) :
  string_of_list_ascii (fold_left WriteEscaped args b)
  = string_of_list_ascii b +:+ String.concat "" (map MakeSafe args).
Proof.
  revert b. induction args as [|x args IH]; intros b.
  - simpl. by rewrite append_empty_r.
  - simpl fold_left. rewrite IH, WriteEscaped_spec, string_of_list_ascii_app.
    rewrite string_of_list_ascii_of_string, <- MakeSafe_escape_spec.
    rewrite append_assoc. f_equal.
    destruct args as [|y args]; simpl.
    + by rewrite append_empty_r.
    + reflexivity.
Qed.

Lemma Vals_insertions (ins : list insertion) (a : JArray) :
  Vals (fold_left insert1 ins a) = Vals a ++ omap raw_of ins.
Proof.
  revert a. induction ins as [|i ins IH]; intros a.
  - simpl. by rewrite app_nil_r.
  - simpl fold_left. rewrite IH. destruct i; simpl.
    + by rewrite <- List.app_assoc.
    + reflexivity.
Qed.

Lemma ByteVals_insertions (ins : list insertion) (a : JArray) :
  map string_of_list_ascii (ByteVals (fold_left insert1 ins a))
  = map string_of_list_ascii (ByteVals a) ++ omap escaped_of ins.
Proof.
  revert a. induction ins as [|i ins IH]; intros a.
  - simpl. by rewrite app_nil_r.
  - simpl fold_left. rewrite IH. destruct i as [val|format args]; simpl.
    + reflexivity.
    + rewrite map_app, <- List.app_assoc. simpl. do 2 f_equal.
      by rewrite fold_WriteEscaped.
Qed.

Lemma Key_insertions (ins : list insertion) (a : JArray) :
  Key (fold_left insert1 ins a) = Key a.
Proof.
  revert a. induction ins as [|i ins IH]; intros a; [reflexivity|].
  simpl fold_left. rewrite IH. by destruct i.
Qed.

(** ** Dictionaries *)

Lemma lead_items_concat (x : string) (l : list string) :
  lead_items (x :: l) = String.concat ", " (x :: l) +:+ ", ".
Proof.
  revert x. induction l as [|y l IH]; intros x.
  - simpl. by rewrite append_empty_r.
  - change (lead_items (x :: y :: l)) with ((x +:+ ", ") +:+ lead_items (y :: l)).
    rewrite IH.
    change (String.concat ", " (x :: y :: l))
      with (x +:+ ", " +:+ String.concat ", " (y :: l)).
    by rewrite !append_assoc.
Qed.

(** Trimming the last separator of a string that ends with one. *)
Lemma slice_to_trim (s : string) :
  slice_to (s +:+ ", ") (Z.of_nat (String.length (s +:+ ", ")) - 2) = Ok s.
Proof.
  unfold slice_to. rewrite length_append. simpl String.length.
  replace (Z.of_nat (String.length s + 2) - 2)%Z with (Z.of_nat (String.length s)) by lia.
  destruct (Z.ltb_spec (Z.of_nat (String.length s)) 0); [lia|].
  destruct (Z.ltb_spec (Z.of_nat (String.length s + 2)) (Z.of_nat (String.length s))); [lia|].
  by rewrite Nat2Z.id, substring_prefix.
Qed.

(** Trimming the empty string panics. *)
Lemma slice_to_empty :
  slice_to "" (Z.of_nat (String.length "") - 2)
  = Panic "runtime error: slice bounds out of range [:-2]".
Proof. reflexivity. Qed.

(** The array serializer that trims the last separator. *)
Lemma trim_loop (vals : list string) (arr : string) :
  range_loop (fun arr val => w ← wrap val [QM]; Ok (arr +:+ (w +:+ ", "))) vals arr
  = Ok (arr +:+ lead_items (map quoted vals)).
Proof.
  revert arr. induction vals as [|v vals IH]; intros arr.
  - simpl. by rewrite append_empty_r.
  - rewrite range_loop_cons. cbv beta. rewrite wrap_one, !bind_Ok, IH.
    simpl map. simpl lead_items. fold (quoted v). by rewrite !append_assoc.
Qed.

Lemma JArray_String_trim_empty (a : JArray) :
  Vals a = [] ->
  JArray_String_trim a = Panic "runtime error: slice bounds out of range [:-2]".
Proof. intros H. unfold JArray_String_trim. by rewrite H. Qed.

Lemma JArray_String_trim_nonempty (a : JArray) :
  Vals a <> [] ->
  JArray_String_trim a
  = Ok (quoted (Key a) +:+ ": " +:+ OB +:+
        String.concat ", " (map quoted (Vals a)) +:+ CB).
Proof.
  intros H. unfold JArray_String_trim. rewrite trim_loop, bind_Ok, append_nil_l.
  destruct (Vals a) as [|v vs]; [done|].
  simpl map. rewrite lead_items_concat, slice_to_trim, bind_Ok.
  rewrite wrap_two, bind_Ok, wrap_one, bind_Ok.
  unfold Sprintf_colon, quoted. by rewrite !append_assoc.
Qed.

(** The two array serializers agree on an array with raw values and no
    escaped value. *)
Lemma JArray_String_trim_agrees (a : JArray) :
  Vals a <> [] -> ByteVals a = [] -> JArray_String_trim a = JArray_String a.
Proof.
  intros HV HB. rewrite JArray_String_trim_nonempty by done.
  rewrite JArray_String_elements. unfold JArray_elements.
  by rewrite HB, app_nil_r.
Qed.

(** C5, on the code. With the [strings.Builder] [JArray.String], for
    every array and every interleaving of [Add] and [AddSafe], the
    serialization lists the raw values, quoted, in the order they were
    added, and after them the escaped values, quoted, in the order they
    were added: [Add("a"); AddSafe("b"); Add("c")] gives ["a", "c", "b"].
    The [JArray.String] that trims the last separator writes the raw values
    alone: the same calls give ["a", "c"], the escaped value is lost, and
    an array with escaped values only panics. *)
Theorem JArray_String_raw_then_escaped (a : JArray) (ins : list insertion) :
  (JArray_String (fold_left insert1 ins a)
   = Ok (quoted (Key a) +:+ ": " +:+ OB +:+
         String.concat ", "
           (map quoted (Vals a ++ omap raw_of ins) ++
            map quoted (map string_of_list_ascii (ByteVals a) ++ omap escaped_of ins))
         +:+ CB)
   /\ JArray_String (Add (AddSafe (Add a "a") "b" []) "c")
      = JArray_String (AddSafe (Add (Add a "a") "c") "b" [])
   /\ JArray_String (Add (AddSafe (Add (NewJArray (Key a)) "a") "b" []) "c")
      = Ok (quoted (Key a) +:+ ": " +:+ OB +:+
            quoted "a" +:+ ", " +:+ quoted "c" +:+ ", " +:+ quoted "b" +:+ CB)) /\
  (JArray_String_trim (Add (AddSafe (Add (NewJArray (Key a)) "a") "b" []) "c")
   = Ok (quoted (Key a) +:+ ": " +:+ OB +:+
         quoted "a" +:+ ", " +:+ quoted "c" +:+ CB)
   /\ JArray_String_trim (Add (AddSafe (Add (NewJArray (Key a)) "a") "b" []) "c")
      <> JArray_String (Add (AddSafe (Add (NewJArray (Key a)) "a") "b" []) "c")
   /\ JArray_String_trim (AddSafe (NewJArray (Key a)) "b" [])
      = Panic "runtime error: slice bounds out of range [:-2]"
   /\ (Vals a ++ omap raw_of ins <> [] ->
       JArray_String_trim (fold_left insert1 ins a)
       = Ok (quoted (Key a) +:+ ": " +:+ OB +:+
             String.concat ", " (map quoted (Vals a ++ omap raw_of ins)) +:+ CB))).
Proof.
  assert (JArray_String_trim (Add (AddSafe (Add (NewJArray (Key a)) "a") "b" []) "c")
          = Ok (quoted (Key a) +:+ ": " +:+ OB +:+
                quoted "a" +:+ ", " +:+ quoted "c" +:+ CB)) as Htrim.
  { rewrite JArray_String_trim_nonempty by discriminate. simpl.
    by rewrite !append_assoc. }
  assert (JArray_String (Add (AddSafe (Add (NewJArray (Key a)) "a") "b" []) "c")
          = Ok (quoted (Key a) +:+ ": " +:+ OB +:+
                quoted "a" +:+ ", " +:+ quoted "c" +:+ ", " +:+ quoted "b" +:+ CB))
    as Hbuilder.
  { rewrite JArray_String_elements. unfold JArray_elements. simpl.
    by rewrite !append_assoc. }
  split; [split; [|split]|split; [|split; [|split]]].
  - rewrite JArray_String_elements. unfold JArray_elements.
    rewrite Key_insertions, Vals_insertions, <- ByteVals_insertions.
    by rewrite map_map.
  - reflexivity.
  - exact Hbuilder.
  - exact Htrim.
  - rewrite Htrim, Hbuilder. intros [= H].
    apply (f_equal String.length) in H. rewrite !length_append in H.
    simpl in H. lia.
  - by apply JArray_String_trim_empty.
  - intros Hne. rewrite JArray_String_trim_nonempty.
    + by rewrite Key_insertions, Vals_insertions.
    + by rewrite Vals_insertions.
Qed.

(** The string of an object: a pair and a group always have one (a
    group prints its dictionary through [fmt]); an array has the one its
    own [String] gives, or its panic. *)
Lemma JObject_String_cases (arr : JArray -> result string) (o : JObject) :
  JObject_String arr o
  = match o with
    | ObjArray a => arr a
    | _ => Ok (JObject_render arr o)
    end.
Proof. by destruct o. Qed.

Lemma JObject_String_returns (arr : JArray -> result string) (o : JObject) :
  (forall a : JArray, o = ObjArray a -> exists s : string, arr a = Ok s) ->
  JObject_String arr o = Ok (JObject_render arr o).
Proof.
  intros H. rewrite JObject_String_cases. destruct o as [p|a|key dict]; try done.
  destruct (H a eq_refl) as [s Hs]. unfold JObject_render. simpl. by rewrite Hs.
Qed.

(** With the [strings.Builder] array serializer every object has a
    string. *)
Lemma JObject_String_Ok (o : JObject) :
  JObject_String JArray_String o = Ok (JObject_render JArray_String o).
Proof.
  apply JObject_String_returns. intros a _. eexists. apply JArray_String_elements.
Qed.

Lemma arrays_return_builder (d : JDict) : arrays_return JArray_String d.
Proof. intros k a _. eexists. apply JArray_String_elements. Qed.

Lemma arrays_return_trim (d : JDict) :
  arrays_return JArray_String_trim d
  <-> forall (k : string) (a : JArray), d !! k = Some (ObjArray a) -> Vals a <> [].
Proof.
  split.
  - intros H k a Hk Hv. destruct (H k a Hk) as [s Hs].
    by rewrite JArray_String_trim_empty in Hs.
  - intros H k a Hk. eexists. apply JArray_String_trim_nonempty. by eapply H.
Qed.

Section JDict_String_facts.
Context {V : Type} (String_ : V -> result string).

Lemma fold_filter_acc (p : string -> bool) (l acc : list string) :
  fold_left (fun acc k => if negb (p k) then acc ++ [k] else acc) l acc
  = acc ++ filter (fun k => p k = false) l.
Proof.
  revert acc. induction l as [|x l IH]; intros acc.
  - simpl. by rewrite app_nil_r.
  - simpl fold_left. rewrite IH, filter_cons.
    case_decide as E.
    + rewrite E. simpl. by rewrite <- List.app_assoc.
    + apply not_false_is_true in E. by rewrite E.
Qed.

Lemma present_default_keys_filter (objects : gmap string V) :
  present_default_keys objects
  = filter (fun k => is_Some (objects !! k)) [TIME_KEY; LEVEL_KEY; ERR_KEY].
Proof.
  unfold present_default_keys, default_keys.
  rewrite !filter_cons, filter_nil. simpl fold_left.
  repeat destruct (decide _); reflexivity.
Qed.

Lemma nonDefaultKeys_filter (objects : gmap string V) :
  nonDefaultKeys objects
  = filter (fun k => in_ default_keys k = false) (map fst (map_to_list objects)).
Proof. unfold nonDefaultKeys. by rewrite fold_filter_acc. Qed.

Lemma in_elem_of (vals : list string) (s : string) :
  in_ vals s = true <-> s ∈ vals.
Proof.
  induction vals as [|v vals IH]; simpl.
  - split; [done | by intros ?%elem_of_nil].
  - rewrite elem_of_cons. destruct (String.eqb_spec s v) as [->|Hne].
    + split; auto.
    + rewrite IH. split; [auto | by intros [?|?]].
Qed.

Lemma elem_of_map_keys (objects : gmap string V) (k : string) :
  k ∈ map fst (map_to_list objects) <-> is_Some (objects !! k).
Proof.
  change (map fst (map_to_list objects)) with ((map_to_list objects).*1).
  rewrite list_elem_of_fmap. split.
  - intros [[k' x] [-> Hin]]. apply elem_of_map_to_list in Hin.
    simpl. by exists x.
  - intros [x Hx]. exists (k, x). split; [done|].
    by apply elem_of_map_to_list.
Qed.

Lemma elem_of_nonDefaultKeys (objects : gmap string V) (k : string) :
  k ∈ nonDefaultKeys objects <-> is_Some (objects !! k) /\ k ∉ default_keys.
Proof.
  rewrite nonDefaultKeys_filter, list_elem_of_filter, elem_of_map_keys.
  rewrite <- in_elem_of, not_true_iff_false. tauto.
Qed.

Lemma NoDup_nonDefaultKeys (objects : gmap string V) :
  NoDup (nonDefaultKeys objects).
Proof.
  rewrite nonDefaultKeys_filter. apply NoDup_filter.
  apply (NoDup_fst_map_to_list objects).
Qed.
End JDict_String_facts.

Lemma elem_of_sort_Strings (l : list string) (k : string) :
  k ∈ sort_Strings l <-> k ∈ l.
Proof. unfold sort_Strings. by rewrite merge_sort_Permutation. Qed.

(** Sorting keys that are all different puts them in strictly ascending
    order. *)
Lemma sort_Strings_ascending (l : list string) :
  NoDup l -> StronglySorted (strict String.le) (sort_Strings l).
Proof.
  intros Hnd.
  assert (NoDup (sort_Strings l)) as Hnd'.
  { unfold sort_Strings. by rewrite merge_sort_Permutation. }
  assert (StronglySorted String.le (sort_Strings l)) as Hs.
  { apply StronglySorted_merge_sort; apply _. }
  induction Hs as [|x r Hs IH Hall]; [constructor|].
  apply NoDup_cons in Hnd' as [Hx Hr].
  constructor; [by apply IH|].
  rewrite Forall_forall in Hall |- *. intros y Hy.
  split; [by apply Hall|].
  intros Hyx. assert (x = y) as -> by (apply (anti_symm String.le); auto).
  done.
Qed.

(** The result of the sort does not depend on the order in which the map
    was ranged over. *)
Lemma sort_Strings_order_irrelevant (l1 l2 : list string) :
  l1 ≡ₚ l2 -> sort_Strings l1 = sort_Strings l2.
Proof.
  intros Hp. unfold sort_Strings.
  apply (Sorted_unique String.le).
  - apply Sorted_merge_sort, _.
  - apply Sorted_merge_sort, _.
  - by rewrite !merge_sort_Permutation.
Qed.

Lemma elem_of_JDict_keys {V : Type} (objects : gmap string V) (k : string) :
  k ∈ JDict_keys objects <-> is_Some (objects !! k).
Proof.
  unfold JDict_keys.
  rewrite elem_of_app, elem_of_sort_Strings, elem_of_nonDefaultKeys.
  rewrite present_default_keys_filter, list_elem_of_filter.
  fold default_keys.
  destruct (decide (k ∈ default_keys)); tauto.
Qed.

Lemma JDict_keys_nonempty {V : Type} (objects : gmap string V) :
  objects <> ∅ -> JDict_keys objects <> [].
Proof.
  intros Hne Hnil. apply Hne, map_empty. intros k.
  apply eq_None_not_Some. rewrite <- elem_of_JDict_keys, Hnil.
  apply not_elem_of_nil.
Qed.

Lemma JDict_keys_empty {V : Type} : JDict_keys (∅ : gmap string V) = [].
Proof.
  apply elem_of_nil_inv. intros k. rewrite elem_of_JDict_keys, lookup_empty.
  by intros [? ?].
Qed.

(** The loop that writes the entries: the strings are asked for in the
    order of the keys, and the first panic ends the loop. *)
Lemma entries_loop (arr : JArray -> result string) (d : JDict)
    (keys : list string) (out : string) :
  range_loop
    (fun out k =>
       match d !! k with
       | Some o => s ← JObject_String arr o; Ok (out +:+ (s +:+ ", "))
       | None =>
           Panic "runtime error: invalid memory address or nil pointer dereference"
       end)
    keys out
  = (es ← entries_in_order (JObject_String arr) d keys; Ok (out +:+ lead_items es)).
Proof.
  revert out. induction keys as [|k keys IH]; intros out.
  - simpl. by rewrite append_empty_r.
  - rewrite range_loop_cons. cbv beta. simpl entries_in_order.
    destruct (d !! k) as [o|]; [|reflexivity].
    destruct (JObject_String arr o) as [s|msg]; [|reflexivity].
    rewrite !bind_Ok, IH.
    destruct (entries_in_order (JObject_String arr) d keys) as [es|msg];
      [|reflexivity].
    rewrite !bind_Ok. simpl lead_items. by rewrite !append_assoc.
Qed.

Lemma entries_in_order_length (S : JObject -> result string) (d : JDict)
    (keys : list string) (es : list string) :
  entries_in_order S d keys = Ok es -> length es = length keys.
Proof.
  revert es. induction keys as [|k keys IH]; intros es; simpl.
  - by intros [= <-].
  - destruct (d !! k) as [o|]; [|done]. destruct (S o) as [s|]; [|done].
    rewrite bind_Ok.
    destruct (entries_in_order S d keys) as [es'|]; [|done].
    rewrite bind_Ok. intros [= <-]. simpl. by rewrite (IH es').
Qed.

Lemma entries_in_order_returns (arr : JArray -> result string) (d : JDict)
    (keys : list string) :
  Forall (fun k => is_Some (d !! k)) keys -> arrays_return arr d ->
  entries_in_order (JObject_String arr) d keys = Ok (map (entry_string arr d) keys).
Proof.
  intros Hall Harr. induction Hall as [|k keys [o Ho] Hall IH]; [reflexivity|].
  simpl. rewrite Ho, IH.
  rewrite JObject_String_returns by (intros a ->; by eapply Harr).
  rewrite !bind_Ok. unfold entry_string at 2. by rewrite Ho.
Qed.

(** A dictionary that is not empty serializes its entries in the order
    of [JDict_keys] and puts them between braces; the panic of an entry
    is the panic of the dictionary. *)
Lemma JDict_String_in_order (arr : JArray -> result string) (d : JDict) :
  d <> ∅ ->
  JDict_String arr d
  = (es ← entries_in_order (JObject_String arr) d (JDict_keys d);
     Ok (OC +:+ String.concat ", " es +:+ CC)).
Proof.
  intros Hne. unfold JDict_String, JDict_String_with. rewrite entries_loop.
  destruct (entries_in_order (JObject_String arr) d (JDict_keys d)) as [es|msg] eqn:E;
    [|reflexivity].
  rewrite !bind_Ok, append_nil_l.
  apply entries_in_order_length in E.
  destruct es as [|e es].
  { apply JDict_keys_nonempty in Hne. by destruct (JDict_keys d). }
  rewrite lead_items_concat, slice_to_trim, bind_Ok.
  apply wrap_two.
Qed.

Lemma JDict_String_nonempty (arr : JArray -> result string) (d : JDict) :
  d <> ∅ -> arrays_return arr d ->
  JDict_String arr d
  = Ok (OC +:+ String.concat ", " (map (entry_string arr d) (JDict_keys d)) +:+ CC).
Proof.
  intros Hne Harr. rewrite JDict_String_in_order by done.
  rewrite entries_in_order_returns; [done| |done].
  apply Forall_forall. intros k. by rewrite elem_of_JDict_keys.
Qed.

Lemma JDict_String_empty (arr : JArray -> result string) :
  JDict_String arr ∅ = Panic "runtime error: slice bounds out of range [:-2]".
Proof.
  unfold JDict_String, JDict_String_with.
  replace (JDict_keys (∅ : JDict)) with (@nil string) by (by vm_compute).
  reflexivity.
Qed.

Lemma range_loop_ext {A S : Type} (f g : S -> A -> result S) (l : list A) (st : S) :
  (forall st x, f st x = g st x) -> range_loop f l st = range_loop g l st.
Proof.
  intros Hfg. revert st. induction l as [|x l IH]; intros st; [reflexivity|].
  rewrite !range_loop_cons, Hfg. destruct (g st x); simpl; [apply IH | reflexivity].
Qed.

(** The dictionary of a group is serialized as [JDict_String] says. *)
Lemma JDict_String_fmap (arr : JArray -> result string) (d : JDict) :
  JDict_String_with id (JObject_String arr <$> d) = JDict_String arr d.
Proof.
  unfold JDict_String, JDict_String_with.
  assert (JDict_keys (JObject_String arr <$> d) = JDict_keys d) as ->.
  { unfold JDict_keys. f_equal.
    - rewrite !present_default_keys_filter.
      apply list_filter_iff. intros k. rewrite lookup_fmap.
      by rewrite fmap_is_Some.
    - unfold nonDefaultKeys. rewrite map_to_list_fmap.
      f_equal. f_equal.
      change (map fst (prod_map id (JObject_String arr) <$> map_to_list d))
        with (map fst (map (prod_map id (JObject_String arr)) (map_to_list d))).
      rewrite map_map. apply map_ext. by intros [? ?]. }
  f_equal. apply range_loop_ext. intros out k.
  rewrite lookup_fmap. by destruct (d !! k).
Qed.

Lemma JObject_String_group (arr : JArray -> result string)
    (key : string) (dict : JDict) :
  JObject_String arr (ObjGroup key dict) = JGroup_String arr key dict.
Proof. unfold JGroup_String. simpl. by rewrite JDict_String_fmap. Qed.

(** C4. For every dictionary that is not empty, the serialization lists
    the entries in this order: first those of the keys [time], [level]
    and [error] that are present, in that order; then the other keys, in
    ascending lexicographic order. This holds whatever the [String] of
    arrays is: the strings of the entries are asked for in that order and
    written in that order between braces. With the [strings.Builder]
    [JArray.String] every entry has a string; with the [JArray.String] that
    trims, every entry has one when the arrays among the entries have a raw
    value (an array without one panics, and the dictionary with it). *)
Theorem JDict_String_entry_order (arr : JArray -> result string) (d : JDict) :
  d <> ∅ ->
  exists rest : list string,
    StronglySorted (strict String.le) rest /\
    (forall k : string,
       k ∈ rest <-> is_Some (d !! k) /\ k ∉ [TIME_KEY; LEVEL_KEY; ERR_KEY]) /\
    let keys :=
      filter (fun k => is_Some (d !! k)) [TIME_KEY; LEVEL_KEY; ERR_KEY] ++ rest in
    JDict_String arr d
    = (es ← entries_in_order (JObject_String arr) d keys;
       Ok (OC +:+ String.concat ", " es +:+ CC)) /\
    (arrays_return arr d ->
     JDict_String arr d
     = Ok (OC +:+ String.concat ", " (map (entry_string arr d) keys) +:+ CC)) /\
    JDict_String JArray_String d
    = Ok (OC +:+ String.concat ", " (map (entry_string JArray_String d) keys) +:+ CC) /\
    ((forall (k : string) (a : JArray), d !! k = Some (ObjArray a) -> Vals a <> []) ->
     JDict_String JArray_String_trim d
     = Ok (OC +:+
           String.concat ", " (map (entry_string JArray_String_trim d) keys) +:+ CC)).
Proof.
  intros Hne. exists (sort_Strings (nonDefaultKeys d)). split; [|split].
  - apply sort_Strings_ascending, NoDup_nonDefaultKeys.
  - intros k. by rewrite elem_of_sort_Strings, elem_of_nonDefaultKeys.
  - cbv zeta. rewrite <- present_default_keys_filter.
    fold (JDict_keys d). split; [|split; [|split]].
    + by apply JDict_String_in_order.
    + by apply JDict_String_nonempty.
    + apply JDict_String_nonempty; [done | apply arrays_return_builder].
    + intros H. apply JDict_String_nonempty; [done | by apply arrays_return_trim].
Qed.

Lemma example_dict_nonempty : example_dict <> ∅.
Proof.
  intros H. apply (f_equal (fun m : JDict => m !! "apple")) in H.
  vm_compute in H. discriminate H.
Qed.

Lemma JDict_String_entry_order_witness :
  example_dict <> ∅ /\
  exists rest : list string,
    StronglySorted (strict String.le) rest /\
    (forall k : string,
       k ∈ rest <-> is_Some (example_dict !! k) /\ k ∉ [TIME_KEY; LEVEL_KEY; ERR_KEY]) /\
    JDict_String JArray_String_trim example_dict
    = Ok (OC +:+
          String.concat ", "
            (map (entry_string JArray_String_trim example_dict)
               (filter (fun k => is_Some (example_dict !! k))
                  [TIME_KEY; LEVEL_KEY; ERR_KEY]
                ++ rest))
          +:+ CC) /\
    JDict_String JArray_String example_dict
    = Ok (OC +:+
          String.concat ", "
            (map (entry_string JArray_String example_dict)
               (filter (fun k => is_Some (example_dict !! k))
                  [TIME_KEY; LEVEL_KEY; ERR_KEY]
                ++ rest))
          +:+ CC).
Proof.
  split; [exact example_dict_nonempty|].
  destruct (JDict_String_entry_order JArray_String_trim example_dict
              example_dict_nonempty) as (rest & Hs & Hin & _ & Hret & Hb & _).
  exists rest. split; [exact Hs|]. split; [exact Hin|]. split; [|exact Hb].
  apply Hret. intros k a Hk. exfalso.
  revert Hk. unfold example_dict, JDict_SetPair, NewJDict. simpl.
  rewrite !lookup_insert, lookup_empty. repeat case_decide; discriminate.
Defined.

(** Keys [error], [level], [time], [zebra], [apple] come out as [time],
    [level], [error], [apple], [zebra]. *)
Example JDict_keys_example :
  JDict_keys example_dict = ["time"; "level"; "error"; "apple"; "zebra"].
Proof. vm_compute. reflexivity. Qed.

(** With the [JArray.String] that trims, a dictionary whose only entry is
    an array with no value does not serialize. *)
Example JDict_String_trim_example_tags :
  example_tags <> ∅ /\
  JDict_String JArray_String_trim example_tags
  = Panic "runtime error: slice bounds out of range [:-2]" /\
  JDict_String JArray_String example_tags
  = Ok (OC +:+ quoted "tags" +:+ ": " +:+ OB +:+ CB +:+ CC).
Proof.
  split; [apply insert_non_empty|]. split; vm_compute; reflexivity.
Qed.

Example JDict_String_example :
  JDict_String JArray_String example_dict
  = Ok (OC +:+ quoted "time" +:+ ": " +:+ quoted "t" +:+ ", " +:+
        quoted "level" +:+ ": " +:+ quoted "l" +:+ ", " +:+
        quoted "error" +:+ ": " +:+ quoted "e" +:+ ", " +:+
        quoted "apple" +:+ ": " +:+ quoted "a" +:+ ", " +:+
        quoted "zebra" +:+ ": " +:+ quoted "z" +:+ CC).
Proof. vm_compute. reflexivity. Qed.

(** ** Empty containers *)

(** C6, on the code. With the [strings.Builder] [JArray.String] the
    empty array serializes to its quoted key and an empty pair of
    brackets; with the [JArray.String] that trims it panics. The empty
    dictionary does not serialize to a pair of braces, whatever the
    [String] of arrays: [JDict_String] trims two bytes off the empty
    string, which is a run-time panic. *)
Theorem empty_containers :
  (forall key : string,
     JArray_String (NewJArray key) = Ok (quoted key +:+ ": " +:+ OB +:+ CB)) /\
  (forall arr : JArray -> result string,
     JDict_String arr NewJDict
     = Panic "runtime error: slice bounds out of range [:-2]" /\
     JDict_String arr NewJDict <> Ok (OC +:+ CC)) /\
  (forall key : string,
     JArray_String_trim (NewJArray key)
     = Panic "runtime error: slice bounds out of range [:-2]").
Proof.
  split; [|split].
  - intros key. rewrite JArray_String_elements. reflexivity.
  - intros arr. unfold NewJDict. by rewrite JDict_String_empty.
  - intros key. by apply JArray_String_trim_empty.
Qed.

(** ** The aggregator: retrieval *)

(** C8. [Get] returns the stored object and leaves the logger as it was
    when the key is present, and fails with "key not found" (the logger
    as it was) when it is absent. [Pop] returns the stored object and
    removes that key and no other when the key is present, and fails with
    "key not found" (the logger as it was) when it is absent. [Get[T]]
    fails with a cast error when the object under the key is not a [T]. *)
Theorem Get_Pop_GetT (j : JLog) (k : string) :
  (forall obj : JObject,
     objects j !! k = Some obj ->
     Get j k = (j, inl obj) /\
     Pop j k = (with_objects (delete k (objects j)) j, inl obj) /\
     objects (fst (Pop j k)) !! k = None /\
     (forall k' : string, k' <> k -> objects (fst (Pop j k)) !! k' = objects j !! k') /\
     (forall T : KeyVal,
        dynamic_type obj <> T -> GetT T j k = (j, inr (could_not_cast k))) /\
     GetT (dynamic_type obj) j k = (j, inl obj)) /\
  (objects j !! k = None ->
     Get j k = (j, inr key_not_found) /\
     Pop j k = (j, inr key_not_found) /\
     (forall T : KeyVal, GetT T j k = (j, inr key_not_found))).
Proof.
  split.
  - intros obj H. unfold Get, Pop, GetT. rewrite H. simpl.
    repeat split.
    + apply lookup_delete_eq.
    + intros k' Hne. by apply lookup_delete_ne.
    + intros T HT. by rewrite decide_False.
    + by rewrite decide_True.
  - intros H. unfold Get, Pop, GetT. by rewrite H.
Qed.

Lemma Get_Pop_GetT_witness :
  Get example_log TIME_KEY
  = (example_log, inl (ObjPair (NewJPair TIME_KEY "2023-08-10 9:00:41.553pm -04"))) /\
  GetT TJArray example_log TIME_KEY = (example_log, inr (could_not_cast TIME_KEY)) /\
  Pop example_log "method" = (example_log, inr key_not_found).
Proof.
  pose proof (Get_Pop_GetT example_log TIME_KEY) as [Hsome _].
  pose proof (Get_Pop_GetT example_log "method") as [_ Hnone].
  specialize (Hsome (ObjPair (NewJPair TIME_KEY "2023-08-10 9:00:41.553pm -04")) eq_refl).
  specialize (Hnone eq_refl).
  destruct Hsome as (HGet & _ & _ & _ & HT & _).
  destruct Hnone as (_ & HPop & _).
  split; [exact HGet|]. split; [|exact HPop].
  apply HT. discriminate.
Defined.

(** ** The aggregator: levels *)

Section Sequences.
Context {Instant : Type} (arr : JArray -> result string).
Context (Format : Instant -> string -> string).


Lemma level_cases (l : string) :
  l ∈ [INFO; WARN; ERROR] <-> l = INFO \/ l = WARN \/ l = ERROR.
Proof. rewrite !elem_of_cons, elem_of_nil. tauto. Qed.

Lemma run_cons (j : JLog) (o : op) (ops : list op) :
  run arr Format j (o :: ops)
  = (fst (run arr Format (fst (step arr Format j o)) ops),
     match snd (step arr Format j o) with
     | Some effs => effs :: snd (run arr Format (fst (step arr Format j o)) ops)
     | None => snd (run arr Format (fst (step arr Format j o)) ops)
     end).
Proof.
  simpl. destruct (step arr Format j o) as [j1 r]. simpl.
  by destruct (run arr Format j1 ops).
Qed.

Lemma run_app_fst (j : JLog) (ops1 ops2 : list op) :
  fst (run arr Format j (ops1 ++ ops2)) = fst (run arr Format (fst (run arr Format j ops1)) ops2).
Proof.
  revert j. induction ops1 as [|o ops1 IH]; intros j; [reflexivity|].
  rewrite <- app_comm_cons, !run_cons. simpl. apply IH.
Qed.

Lemma level_Info (j : JLog) (format : string) (args : list string) :
  level (Info j format args) = level j.
Proof. unfold Info. by destruct (0 <? length args)%nat. Qed.

Lemma level_Warn (j : JLog) (format : string) (args : list string) :
  level (Warn j format args) = if decide (level j = ERROR) then ERROR else WARN.
Proof.
  unfold Warn. destruct (decide (level j ≠ ERROR)) as [Hne|He].
  - rewrite decide_False by done. by destruct (0 <? length args)%nat.
  - apply dec_stable in He. rewrite decide_True by done.
    by destruct (0 <? length args)%nat.
Qed.

Lemma level_Error (j : JLog) (err : error) : level (Error j err) = ERROR.
Proof. reflexivity. Qed.

Lemma level_rank_step (j : JLog) (o : op) :
  is_record o = true ->
  level j ∈ [INFO; WARN; ERROR] ->
  level (fst (step arr Format j o)) ∈ [INFO; WARN; ERROR] /\
  level_rank (level j) <= level_rank (level (fst (step arr Format j o))).
Proof.
  intros Ho Hl. destruct o; try discriminate Ho; simpl.
  - rewrite level_Info. auto.
  - rewrite level_Warn. case_decide as He.
    + rewrite He. split; [apply level_cases; auto | done].
    + split; [apply level_cases; auto|].
      apply level_cases in Hl as [->|[->|Hl]]; [vm_compute; lia.. | done].
  - split; [apply level_cases; auto|].
    apply level_cases in Hl as [->|[->| ->]]; vm_compute; lia.
Qed.

Lemma level_run_record (j : JLog) (calls : list op) :
  Forall (fun o => is_record o = true) calls ->
  level j ∈ [INFO; WARN; ERROR] ->
  level (fst (run arr Format j calls)) ∈ [INFO; WARN; ERROR] /\
  level_rank (level j) <= level_rank (level (fst (run arr Format j calls))).
Proof.
  intros Hall. revert j. induction Hall as [|o calls Ho Hall IH]; intros j Hl.
  - simpl. auto.
  - rewrite run_cons. simpl fst.
    destruct (level_rank_step j o Ho Hl) as [Hl1 Hle1].
    destruct (IH _ Hl1) as [Hl2 Hle2]. split; [done|lia].
Qed.

Lemma level_ERROR_absorbing (j : JLog) (calls : list op) :
  Forall (fun o => is_record o = true) calls ->
  level j = ERROR -> level (fst (run arr Format j calls)) = ERROR.
Proof.
  intros Hall. revert j. induction Hall as [|o calls Ho Hall IH]; intros j Hl.
  - done.
  - rewrite run_cons. simpl fst. apply IH.
    destruct o; try discriminate Ho; simpl.
    + by rewrite level_Info.
    + rewrite level_Warn. by rewrite decide_True.
    + reflexivity.
Qed.

(** C3. From the initial level [INFO], along every sequence of [Info],
    [Warn] and [Error] calls the level only moves up the order [INFO],
    [WARN], [ERROR]: [Info] leaves it, [Warn] makes it [WARN] unless it
    is [ERROR], [Error] makes it [ERROR], and once it is [ERROR] no
    [Info] or [Warn] (nor [Error]) changes it. *)
Theorem level_only_advances :
  level New = INFO /\
  (forall j format args, level (Info j format args) = level j) /\
  (forall j format args,
     level (Warn j format args) = if decide (level j = ERROR) then ERROR else WARN) /\
  (forall j err, level (Error j err) = ERROR) /\
  (forall calls more : list op,
     Forall (fun o => is_record o = true) (calls ++ more) ->
     level (fst (run arr Format New calls)) ∈ [INFO; WARN; ERROR] /\
     level_rank (level (fst (run arr Format New calls)))
     <= level_rank (level (fst (run arr Format New (calls ++ more))))) /\
  (forall (j : JLog) (calls : list op),
     Forall (fun o => is_record o = true) calls ->
     level j = ERROR -> level (fst (run arr Format j calls)) = ERROR).
Proof.
  split; [reflexivity|].
  split; [apply level_Info|].
  split; [apply level_Warn|].
  split; [apply level_Error|].
  split; [|apply level_ERROR_absorbing].
  intros calls more Hall. apply Forall_app in Hall as [Hc Hm].
  assert (level New ∈ [INFO; WARN; ERROR]) as H0 by (apply level_cases; auto).
  destruct (level_run_record New calls Hc H0) as [Hl _].
  split; [done|].
  rewrite run_app_fst. by apply level_run_record.
Qed.
End Sequences.

Lemma level_only_advances_witness :
  level (fst (run JArray_String example_Format New
                [OpInfo "a" []; OpWarn "b" []; OpInfo "c" []])) = WARN /\
  level_rank WARN
  <= level_rank (level (fst (run JArray_String example_Format New
                               ([OpInfo "a" []; OpWarn "b" []; OpInfo "c" []]
                                ++ [OpError "bad"; OpWarn "d" []])))) /\
  level (fst (run JArray_String example_Format (Error New "bad") [OpInfo "a" []; OpWarn "b" []]))
  = ERROR.
Proof.
  pose proof (level_only_advances JArray_String example_Format) as (_ & _ & _ & _ & Hmono & Habs).
  split; [reflexivity|]. split.
  - apply (Hmono [OpInfo "a" []; OpWarn "b" []; OpInfo "c" []]
                 [OpError "bad"; OpWarn "d" []]).
    repeat constructor.
  - apply (Habs (Error New "bad") [OpInfo "a" []; OpWarn "b" []]).
    + repeat constructor.
    + reflexivity.
Defined.

Example level_Info_Warn_Info :
  level (fst (run JArray_String example_Format New [OpInfo "a" []; OpWarn "b" []; OpInfo "c" []]))
  = WARN.
Proof. reflexivity. Qed.

Example level_Warn_Error_then_Info_Warn :
  level (fst (run JArray_String example_Format New
                [OpWarn "a" []; OpError "bad"; OpInfo "b" []; OpWarn "c" ["d"]]))
  = ERROR.
Proof. reflexivity. Qed.

(** ** The aggregator: the one-shot gate *)

Section Gate.
Context {Instant : Type} (arr : JArray -> result string).
Context (Format : Instant -> string -> string).

Abbreviation Print' := (Print arr Format).
Abbreviation PrettyPrint' := (PrettyPrint arr Format).
Abbreviation step' := (step arr Format).
Abbreviation run' := (run arr Format).

Lemma once_Do_armed {A : Type} (j : JLog) (f : JLog -> A) :
  once j = false -> once_Do j f = (with_once true j, Some (f j)).
Proof. intros H. unfold once_Do. by rewrite H. Qed.

Lemma once_Do_fired {A : Type} (j : JLog) (f : JLog -> A) :
  once j = true -> once_Do j f = (j, None).
Proof. intros H. unfold once_Do. by rewrite H. Qed.

Lemma once_Log (j : JLog) (f : LogFunc) (err : error) (args : list string) :
  once (Log j f err args) = once j.
Proof.
  unfold Log. destruct (f err args) as [[lvl ms] objs].
  match goal with |- once (fold_left _ _ ?j0) = _ =>
    change (once j) with (once j0); generalize j0 end.
  induction objs as [|obj objs IH]; intros j0; [reflexivity|].
  simpl fold_left. by rewrite IH.
Qed.

(** No call but [Reset] re-arms the gate, and no call but [Print] and
    [PrettyPrint] runs an emission body. *)
Lemma step_fired (j : JLog) (o : op) :
  is_reset o = false -> once j = true ->
  once (fst (step' j o)) = true /\ snd (step' j o) = None.
Proof.
  intros Ho Hj. destruct o; try discriminate Ho; simpl.
  - unfold Get. by destruct (objects j !! k).
  - unfold GetT. destruct (objects j !! k); [|done]. by case_decide.
  - unfold Pop. by destruct (objects j !! k).
  - done.
  - done.
  - done.
  - done.
  - unfold Print. by rewrite once_Do_fired.
  - unfold PrettyPrint. by rewrite once_Do_fired.
  - unfold Info. by destruct (0 <? length args)%nat.
  - unfold Warn. destruct (decide (level j ≠ ERROR));
      by destruct (0 <? length args)%nat.
  - done.
  - by rewrite once_Log.
Qed.

Lemma step_not_emit (j : JLog) (o : op) :
  is_emit o = false -> snd (step' j o) = None.
Proof. intros Ho. by destruct o. Qed.

Lemma step_emit_armed (j : JLog) (o : op) :
  is_emit o = true -> once j = false ->
  once (fst (step' j o)) = true /\ exists effs, snd (step' j o) = Some effs.
Proof.
  intros Ho Hj. destruct o; try discriminate Ho; simpl.
  - unfold Print. rewrite once_Do_armed by done. eauto.
  - unfold PrettyPrint. rewrite once_Do_armed by done. eauto.
Qed.

Lemma run_fired (j : JLog) (ops : list op) :
  Forall (fun o => is_reset o = false) ops -> once j = true ->
  once (fst (run' j ops)) = true /\ snd (run' j ops) = [].
Proof.
  intros Hall. revert j. induction Hall as [|o ops Ho Hall IH]; intros j Hj.
  - done.
  - rewrite run_cons. simpl.
    destruct (step_fired j o Ho Hj) as [H1 ->].
    by apply IH.
Qed.

Lemma run_at_most_one (j : JLog) (ops : list op) :
  Forall (fun o => is_reset o = false) ops -> length (snd (run' j ops)) <= 1.
Proof.
  intros Hall. revert j. induction Hall as [|o ops Ho Hall IH]; intros j.
  - simpl. lia.
  - rewrite run_cons. simpl snd.
    destruct (once j) eqn:Hj.
    + destruct (step_fired j o Ho Hj) as [_ ->]. apply IH.
    + destruct (is_emit o) eqn:He.
      * destruct (step_emit_armed j o He Hj) as [H1 [effs ->]].
        destruct (run_fired _ ops Hall H1) as [_ ->]. simpl. lia.
      * rewrite step_not_emit by done. apply IH.
Qed.

(** C2. In one lifetime of the gate (a sequence of calls with no
    [Reset], from any state: a new logger or one just reset) at most one
    of the [Print] and [PrettyPrint] calls runs its body. The first one
    fires the gate, also when it writes nothing because there is no
    message; every later one does nothing, until [Reset] arms the gate
    again. *)
Theorem one_shot_gate :
  once New = false /\
  (forall j : JLog, once (Reset j) = false) /\
  (forall (j : JLog) (now : Instant),
     once j = false ->
     (exists effs, Print' now j = (with_once true j, Some effs)) /\
     (exists effs, PrettyPrint' now j = (with_once true j, Some effs))) /\
  (forall (j : JLog) (now : Instant),
     once j = false -> Vals (msgs j) = [] ->
     Print' now j = (with_once true j, Some [])) /\
  (forall (j : JLog) (now : Instant),
     once j = true ->
     Print' now j = (j, None) /\ PrettyPrint' now j = (j, None)) /\
  (forall (j : JLog) (ops : list op),
     Forall (fun o => is_reset o = false) ops -> once j = true ->
     once (fst (run' j ops)) = true /\ snd (run' j ops) = []) /\
  (forall (j : JLog) (ops : list op),
     Forall (fun o => is_reset o = false) ops ->
     length (snd (run' j ops)) <= 1).
Proof.
  split; [reflexivity|]. split; [reflexivity|].
  split; [|split; [|split; [|split]]].
  - intros j now Hj. unfold Print, PrettyPrint.
    rewrite !once_Do_armed by done. eauto.
  - intros j now Hj Hv. unfold Print. rewrite once_Do_armed by done.
    by rewrite Hv.
  - intros j now Hj. unfold Print, PrettyPrint.
    by rewrite !once_Do_fired.
  - apply run_fired.
  - apply run_at_most_one.
Qed.
End Gate.

Lemma one_shot_gate_witness :
  Print JArray_String example_Format "now" New = (with_once true New, Some []) /\
  PrettyPrint JArray_String example_Format "later" (with_once true New) = (with_once true New, None) /\
  length (snd (run JArray_String example_Format New
                 [OpInfo "hello" []; OpPrint "t1"; OpInfo "again" [];
                  OpPrettyPrint "t2"; OpPrint "t3"])) <= 1.
Proof.
  pose proof (one_shot_gate JArray_String example_Format) as (_ & _ & _ & Hempty & Hnoop & _ & Hone).
  split; [exact (Hempty New "now" eq_refl eq_refl)|].
  split; [exact (proj2 (Hnoop (with_once true New) "later" eq_refl))|].
  apply Hone. repeat constructor.
Defined.

Example emit_once_then_reset :
  map length
    (snd (run JArray_String example_Format New
            [OpInfo "hello" []; OpPrint "t1"; OpPrint "t2"; OpReset; OpPrint "t3"]))
  = [1; 1].
Proof. vm_compute. reflexivity. Qed.

(** ** The aggregator: what [Print] writes *)

Lemma objects_wf_insert (m : gmap string JObject) (o : JObject) :
  objects_wf m -> objects_wf (<[GetKey o := o]> m).
Proof. intros H. by apply map_Forall_insert_2. Qed.

Lemma objects_wf_delete (m : gmap string JObject) (k : string) :
  objects_wf m -> objects_wf (delete k m).
Proof. intros H. by apply map_Forall_delete. Qed.

Lemma objects_wf_Log (j : JLog) (f : LogFunc) (err : error) (args : list string) :
  objects_wf (objects j) -> objects_wf (objects (Log j f err args)).
Proof.
  unfold Log. destruct (f err args) as [[lvl ms] objs].
  match goal with |- _ -> objects_wf (objects (fold_left _ _ ?j0)) =>
    change (objects j) with (objects j0); generalize j0 end.
  induction objs as [|obj objs IH]; intros j0 H; [done|].
  simpl fold_left. apply IH. simpl. by apply objects_wf_insert.
Qed.

(** The range over [j.objects] in [Print], on a map whose objects are
    stored under their own keys: the objects are laid over the
    dictionary, whatever the order of the range. *)
Lemma set_all_union (objs : gmap string JObject) (dict : JDict) :
  objects_wf objs -> set_all objs dict = objs ∪ dict.
Proof.
  unfold set_all.
  apply (map_fold_weak_ind (fun r m => objects_wf m -> r = m ∪ dict)).
  - intros _. by rewrite (left_id_L ∅ (∪)).
  - intros k o m r Hk IH Hwf.
    apply map_Forall_insert in Hwf as [Hko Hwf]; [|done].
    rewrite IH by done. unfold JDict_Set. rewrite Hko.
    by rewrite insert_union_l.
Qed.

Lemma set_all_nonempty (objs : gmap string JObject) (dict : JDict) :
  dict <> ∅ -> set_all objs dict <> ∅.
Proof.
  intros Hd. unfold set_all.
  apply (map_fold_weak_ind (fun r m => r <> ∅)); [done|].
  intros k o m r _ _. apply insert_non_empty.
Qed.

Section Printing.
Context {Instant : Type} (arr : JArray -> result string).
Context (Format : Instant -> string -> string).

Lemma objects_wf_step (j : JLog) (o : op) :
  objects_wf (objects j) -> objects_wf (objects (fst (step arr Format j o))).
Proof.
  intros H. destruct o; simpl.
  - unfold Get. by destruct (objects j !! k).
  - unfold GetT. destruct (objects j !! k); [|done]. by case_decide.
  - unfold Pop. destruct (objects j !! k); [|done].
    simpl. by apply objects_wf_delete.
  - by apply (objects_wf_insert _ (ObjPair (NewJPair key val))).
  - by apply objects_wf_insert.
  - done.
  - done.
  - unfold Print, once_Do. by destruct (once j).
  - done.
  - unfold PrettyPrint, once_Do. by destruct (once j).
  - unfold Info. by destruct (0 <? length args)%nat.
  - unfold Warn. destruct (decide (level j ≠ ERROR));
      by destruct (0 <? length args)%nat.
  - by apply (objects_wf_insert _ (ObjPair (NewJPair ERR_KEY (MakeSafe err)))).
  - by apply objects_wf_Log.
Qed.

(** In every state the calls of the interface lead to, each object is
    stored under its own key. *)
Lemma objects_wf_run (j : JLog) (ops : list op) :
  objects_wf (objects j) -> objects_wf (objects (fst (run arr Format j ops))).
Proof.
  revert j. induction ops as [|o ops IH]; intros j H; [done|].
  rewrite run_cons. simpl fst. by apply IH, objects_wf_step.
Qed.

Lemma objects_wf_New : objects_wf (objects New).
Proof. apply map_Forall_empty. Qed.

Lemma Print_dict_nonempty (now : Instant) (j : JLog) : Print_dict Format now j <> ∅.
Proof. apply set_all_nonempty, insert_non_empty. Qed.

(** The record of [Print]: the objects of the logger laid over the
    generated [time], [level] and [msgs] entries. *)
Lemma Print_dict_union (now : Instant) (j : JLog) :
  objects_wf (objects j) ->
  Print_dict Format now j
  = objects j ∪
      <[Key (msgs j) := ObjArray (msgs j)]>
        (<[LEVEL_KEY := ObjPair (NewJPair LEVEL_KEY (level j))]>
           (<[TIME_KEY := ObjPair (NewJPair TIME_KEY (Format now (timeLayout j)))]> ∅)).
Proof. intros H. unfold Print_dict. by rewrite set_all_union. Qed.

(** The first [Print] of a logger that has raw messages serializes the
    record and does what [dict.String()] lets it do: one write, of the
    string and a newline, or the panic. *)
Lemma Print_effect (now : Instant) (j : JLog) :
  once j = false -> Vals (msgs j) <> [] ->
  Print arr Format now j
  = (with_once true j,
     Some (write_or_panic (out j) (JDict_String arr (Print_dict Format now j)))).
Proof.
  intros Hj Hv. unfold Print. rewrite once_Do_armed by done.
  destruct (Vals (msgs j)) as [|v vs] eqn:Ev; [done|].
  change (0 <? length (v :: vs))%nat with true. cbv iota.
  reflexivity.
Qed.

(** When the arrays among the entries of the record have a string: one
    write, of the serialized record and a newline. *)
Lemma Print_writes_once (now : Instant) (j : JLog) :
  once j = false -> Vals (msgs j) <> [] ->
  arrays_return arr (Print_dict Format now j) ->
  Print arr Format now j
  = (with_once true j,
     Some [Written (out j)
             ((OC +:+
               String.concat ", "
                 (map (entry_string arr (Print_dict Format now j))
                    (JDict_keys (Print_dict Format now j)))
               +:+ CC) +:+ newline)]).
Proof.
  intros Hj Hv Harr. rewrite Print_effect by done.
  by rewrite JDict_String_nonempty by (done || apply Print_dict_nonempty).
Qed.

(** The first [Print] of a logger that has no raw message writes
    nothing. *)
Lemma Print_skips (now : Instant) (j : JLog) :
  once j = false -> Vals (msgs j) = [] ->
  Print arr Format now j = (with_once true j, Some []).
Proof.
  intros Hj Hv. unfold Print. rewrite once_Do_armed by done. by rewrite Hv.
Qed.

(** C1, on the code. After [Info("user %v", "bob")] the message array
    holds one message, in its escaped bucket, and serializes to a
    one-element array; the first [Print] tests the raw bucket alone,
    takes the logger to have no message, and writes nothing. *)
Theorem Print_skips_escaped_messages (now : Instant) :
  let j := Info New "user %v" ["bob"] in
  once j = false /\
  Vals (msgs j) = [] /\
  ByteVals (msgs j) = [list_ascii_of_string "user %vbob"] /\
  JArray_String (msgs j)
  = Ok (quoted MSG_KEY +:+ ": " +:+ OB +:+ quoted "user %vbob" +:+ CB) /\
  Print arr Format now j = (with_once true j, Some []).
Proof. repeat split. Qed.

(** C10. In every state the calls of the interface lead to, when an
    object is stored under the key [time], [level] or [msgs], the record
    the first [Print] builds and serializes has that object under the key,
    not the generated time pair, level pair or message array, and the
    entry written for the key is the string of that object. This holds
    whatever the [String] of arrays is; [Print] writes the record once
    when the arrays among its entries have a string, which is always so
    with the [strings.Builder] [JArray.String], and so with the
    [JArray.String] that trims when those arrays have a raw value. *)
Theorem reserved_key_override
    (ops : list op) (now : Instant) (k : string) (n : JObject) :
  let j := fst (run arr Format New ops) in
  let dict := Print_dict Format now j in
  let record (arr' : JArray -> result string) : string :=
    OC +:+ String.concat ", " (map (entry_string arr' dict) (JDict_keys dict)) +:+ CC in
  once j = false ->
  Vals (msgs j) <> [] ->
  k ∈ [TIME_KEY; LEVEL_KEY; MSG_KEY] ->
  objects j !! k = Some n ->
  (dict !! k = Some n /\
   k ∈ JDict_keys dict /\
   entry_string arr dict k = JObject_render arr n) /\
  (Print arr Format now j
   = (with_once true j, Some (write_or_panic (out j) (JDict_String arr dict))) /\
   JDict_String arr dict
   = (es ← entries_in_order (JObject_String arr) dict (JDict_keys dict);
      Ok (OC +:+ String.concat ", " es +:+ CC))) /\
  (arrays_return arr dict ->
   Print arr Format now j
   = (with_once true j, Some [Written (out j) (record arr +:+ newline)])) /\
  (Print JArray_String Format now j
   = (with_once true j, Some [Written (out j) (record JArray_String +:+ newline)]) /\
   JDict_String JArray_String dict = Ok (record JArray_String) /\
   entry_string JArray_String dict k = JObject_render JArray_String n) /\
  ((forall (k' : string) (a : JArray), dict !! k' = Some (ObjArray a) -> Vals a <> []) ->
   Print JArray_String_trim Format now j
   = (with_once true j, Some [Written (out j) (record JArray_String_trim +:+ newline)]) /\
   entry_string JArray_String_trim dict k = JObject_render JArray_String_trim n).
Proof.
  intros j dict record Hj Hv Hk Hn.
  assert (objects_wf (objects j)) as Hwf by apply objects_wf_run, objects_wf_New.
  assert (dict !! k = Some n) as Hd.
  { unfold dict. rewrite Print_dict_union by done. by apply lookup_union_Some_l. }
  assert (forall arr', entry_string arr' dict k = JObject_render arr' n) as He.
  { intros arr'. unfold entry_string. by rewrite Hd. }
  split; [|split; [|split; [|split]]].
  - split; [done|]. split; [by apply elem_of_JDict_keys | apply He].
  - split; [by apply Print_effect|].
    apply JDict_String_in_order, Print_dict_nonempty.
  - intros Harr. by apply Print_writes_once.
  - split; [|split; [|apply He]].
    + unfold Print. rewrite once_Do_armed by done.
      destruct (Vals (msgs j)) as [|v vs] eqn:Ev; [done|].
      change (0 <? length (v :: vs))%nat with true. cbv iota.
      fold (Print_dict Format now j). fold dict.
      by rewrite JDict_String_nonempty
        by (apply Print_dict_nonempty || apply arrays_return_builder).
    + apply JDict_String_nonempty;
        [apply Print_dict_nonempty | apply arrays_return_builder].
  - intros Harr. split; [|apply He].
    unfold Print. rewrite once_Do_armed by done.
    destruct (Vals (msgs j)) as [|v vs] eqn:Ev; [done|].
    change (0 <? length (v :: vs))%nat with true. cbv iota.
    fold (Print_dict Format now j). fold dict.
    by rewrite JDict_String_nonempty
      by (apply Print_dict_nonempty || by apply arrays_return_trim).
Qed.
End Printing.

Lemma reserved_key_override_witness :
  Print_dict example_Format "now" example_log !! TIME_KEY
  = Some (ObjPair (NewJPair TIME_KEY "2023-08-10 9:00:41.553pm -04")) /\
  entry_string JArray_String (Print_dict example_Format "now" example_log) TIME_KEY
  = JObject_render JArray_String
      (ObjPair (NewJPair TIME_KEY "2023-08-10 9:00:41.553pm -04")) /\
  Print JArray_String example_Format "now" example_log
  = (with_once true example_log,
     Some [Written (out example_log)
             ((OC +:+
               String.concat ", "
                 (map (entry_string JArray_String
                         (Print_dict example_Format "now" example_log))
                    (JDict_keys (Print_dict example_Format "now" example_log)))
               +:+ CC) +:+ newline)]).
Proof.
  pose proof (reserved_key_override JArray_String example_Format example_ops "now"
                TIME_KEY (ObjPair (NewJPair TIME_KEY "2023-08-10 9:00:41.553pm -04")))
    as H.
  cbv zeta in H.
  destruct H as ((Hd & _ & He) & _ & _ & (HP & _ & _) & _).
  - reflexivity.
  - discriminate.
  - apply list_elem_of_here.
  - reflexivity.
  - split; [exact Hd|]. split; [exact He | exact HP].
Defined.

(** The record of the examples: the time pair is the one set by hand. *)
Example Print_example :
  snd (Print JArray_String example_Format "now" example_log)
  = Some [Written Stdout
            (OC +:+ quoted "time" +:+ ": " +:+ quoted "2023-08-10 9:00:41.553pm -04"
             +:+ ", " +:+ quoted "level" +:+ ": " +:+ quoted "WARN"
             +:+ ", " +:+ quoted "msgs" +:+ ": " +:+ OB +:+ quoted "some info"
             +:+ ", " +:+ quoted "this is a warning"
             +:+ ", " +:+ quoted "some more info" +:+ CB +:+ CC +:+ newline)].
Proof. vm_compute. reflexivity. Qed.

(** A new logger, one raw message, [Print]: time, level and messages, in
    that order, and no error entry. *)
Example Print_hello_world :
  snd (Print JArray_String example_Format "<ts>" (Info New "hello world" []))
  = Some [Written Stdout
            (OC +:+ quoted "time" +:+ ": " +:+ quoted "<ts>"
             +:+ ", " +:+ quoted "level" +:+ ": " +:+ quoted "INFO"
             +:+ ", " +:+ quoted "msgs" +:+ ": " +:+ OB +:+ quoted "hello world"
             +:+ CB +:+ CC +:+ newline)].
Proof. vm_compute. reflexivity. Qed.

(** ** Locking *)

Module LockingFacts.
Import Locking.

Lemma overlap_snoc (h : option nat) (tr : list (nat * action)) (t : nat) (a : action) :
  overlap h (tr ++ [(t, a)])
  = overlap h tr
    || (is_access a &&
        match holder_after h tr with
        | Some t' => negb (bool_decide (t = t'))
        | None => false
        end).
Proof.
  revert h. induction tr as [|[t0 a0] tr IH]; intros h.
  - simpl. destruct a; simpl; try reflexivity;
      destruct h as [t'|]; try reflexivity;
      case_decide; case_bool_decide; done.
  - simpl. destruct a0; try apply IH;
      (destruct h as [t'|]; [|apply IH]);
      (case_decide; [apply IH | reflexivity]).
Qed.

Lemma holder_after_snoc (h : option nat) (tr : list (nat * action)) (t : nat) (a : action) :
  holder_after h (tr ++ [(t, a)])
  = match a with
    | Lock => Some t
    | Unlock => None
    | _ => holder_after h tr
    end.
Proof.
  revert h. induction tr as [|[t0 a0] tr IH]; intros h.
  - by destruct a.
  - simpl. destruct a0; apply IH.
Qed.

Lemma inv_start (ms : list method) :
  Forall (fun m => guarded false (body m) = true) ms -> inv (start ms).
Proof.
  intros Hall. split; [done|]. split; [done|].
  intros t acts Ht. simpl in Ht.
  change (map body ms) with (body <$> ms) in Ht.
  apply list_lookup_fmap_Some_1 in Ht as (m & -> & Hm).
  rewrite Forall_forall in Hall. apply Hall.
  by apply list_elem_of_lookup_2 in Hm.
Qed.

(** An access of a guarded thread: the thread holds the lock. *)
Lemma inv_access (c : config) (t : nat) (a : action) (rest : list action) :
  inv c -> is_access a = true -> threads c !! t = Some (a :: rest) ->
  inv {| holder := holder c; threads := <[t := rest]> (threads c);
         trace := trace c ++ [(t, a)] |}.
Proof.
  intros (Hov & Hh & Hg) Ha Ht.
  pose proof (Hg t _ Ht) as Hga.
  assert (t < length (threads c)) as Hlt by (by eapply lookup_lt_Some).
  assert (holder c = Some t /\ guarded true rest = true) as [Hheld Hrest].
  { destruct a; try discriminate Ha; simpl in Hga;
      apply andb_true_iff in Hga as [Hheld Hga];
      apply bool_decide_eq_true in Hheld;
      by rewrite bool_decide_eq_true_2 in Hga by done. }
  repeat split; simpl.
  - rewrite overlap_snoc, Hov, Hh, Hheld. simpl.
    by rewrite bool_decide_eq_true_2, andb_false_r.
  - rewrite holder_after_snoc. by destruct a.
  - intros t' acts Hl. destruct (decide (t' = t)) as [->|Hn].
    + rewrite list_lookup_insert_eq in Hl by done. injection Hl as <-.
      by rewrite bool_decide_eq_true_2.
    + rewrite list_lookup_insert_ne in Hl by done. by apply Hg.
Qed.

Lemma inv_step (c c' : config) (t : nat) :
  inv c -> sched_step c t = Some c' -> inv c'.
Proof.
  intros (Hov & Hh & Hg) Hs. unfold sched_step in Hs.
  destruct (threads c !! t) as [[|a rest]|] eqn:Ht; try discriminate Hs.
  pose proof (Hg t _ Ht) as Hga.
  assert (t < length (threads c)) as Hlt by (by eapply lookup_lt_Some).
  assert (forall h t' acts,
            (<[t := rest]> (threads c)) !! t' = Some acts ->
            (t' = t -> guarded (bool_decide (h = Some t)) rest = true) ->
            (t' <> t -> bool_decide (h = Some t') = bool_decide (holder c = Some t')) ->
            guarded (bool_decide (h = Some t')) acts = true) as Hthreads.
  { intros h t' acts Hl Heq Hne. destruct (decide (t' = t)) as [->|Hn].
    - rewrite list_lookup_insert_eq in Hl by done.
      injection Hl as <-. by apply Heq.
    - rewrite list_lookup_insert_ne in Hl by done.
      rewrite Hne by done. by apply Hg. }
  destruct a; [| |injection Hs as <-..].
  - (* Lock *)
    destruct (holder c) as [t0|] eqn:Hc; [discriminate Hs|].
    injection Hs as <-. repeat split; simpl.
    + by rewrite overlap_snoc, Hov, Hh.
    + by rewrite holder_after_snoc.
    + intros t' acts Hl. apply (Hthreads (Some t) t' acts Hl).
      * intros _. rewrite bool_decide_eq_true_2 by done.
        rewrite bool_decide_eq_false_2 in Hga by done. simpl in Hga.
        exact Hga.
      * intros Hn. rewrite !bool_decide_eq_false_2; [done..|].
        intros [= ->]. done.
  - (* Unlock *)
    destruct (decide (holder c = Some t)) as [Hc|Hc]; [|discriminate Hs].
    injection Hs as <-. repeat split; simpl.
    + by rewrite overlap_snoc, Hov, Hh.
    + by rewrite holder_after_snoc.
    + intros t' acts Hl. apply (Hthreads None t' acts Hl).
      * intros _. rewrite bool_decide_eq_false_2 by done.
        rewrite bool_decide_eq_true_2 in Hga by done. simpl in Hga.
        exact Hga.
      * intros Hn. rewrite !bool_decide_eq_false_2; [done| |done].
        rewrite Hc. intros [= ->]. done.
  - (* Read *) by apply (inv_access c t (Read f) rest).
  - (* Write *) by apply (inv_access c t (Write f) rest).
  - (* SinkWrite *) by apply (inv_access c t SinkWrite rest).
  - (* Call *) by apply (inv_access c t Call rest).
Qed.

Lemma inv_run (c c' : config) (schedule : list nat) :
  inv c -> sched_run c schedule = Some c' -> inv c'.
Proof.
  revert c. induction schedule as [|t schedule IH]; intros c Hc Hr.
  - by injection Hr as <-.
  - simpl in Hr. destruct (sched_step c t) as [c1|] eqn:Hs; [|discriminate Hr].
    eapply IH; [|exact Hr]. by eapply inv_step.
Qed.

(** Methods that take the lock around all their accesses exclude each
    other, under every schedule. *)
Lemma guarded_exclusive (ms : list method) (schedule : list nat) (c : config) :
  Forall (fun m => guarded false (body m) = true) ms ->
  sched_run (start ms) schedule = Some c ->
  overlap None (trace c) = false.
Proof.
  intros Hall Hr. by destruct (inv_run _ _ _ (inv_start ms Hall) Hr) as [? _].
Qed.

(** C9, on the code. [Get], [Pop], [SetPair], [Set], [SetOutput],
    [SetTime], [Info], [Warn], [Error] and [Log] hold the lock around all
    their accesses; [Get[T]], [Reset], [Print] and [PrettyPrint] never
    take it. With one thread in [Set] and one in [Print], there is a
    schedule in which [Print] reads the logger and writes the record
    while [Set] holds the lock. *)
Theorem Print_runs_outside_lock :
  filter (fun m => guarded false (body m) = false) all_methods
  = [M_GetT; M_Reset; M_Print; M_PrettyPrint] /\
  exists c : config,
    sched_run (start [M_Set; M_Print]) [0; 1; 1; 1; 1; 1; 1; 1; 0; 0; 0] = Some c /\
    threads c = [[]; []] /\
    overlap None (trace c) = true.
Proof.
  split; [reflexivity|].
  eexists. split; [reflexivity|]. split; reflexivity.
Qed.

End LockingFacts.

(** * Further properties *)

(** ** The escaper and the two ways of adding to an array *)

Lemma quotes_escaped_escape_spec (s : string) (prev : bool) :
  quotes_escaped_from prev (escape_spec s) = true.
Proof.
  revert prev. induction s as [|c s IH]; intros prev; [reflexivity|].
  simpl. destruct (Ascii.eqb c quote_byte) eqn:Ec.
  - apply Ascii.eqb_eq in Ec. subst c. simpl. apply IH.
  - simpl. rewrite Ec. simpl. apply IH.
Qed.

Lemma length_escape_spec (s : string) :
  String.length (escape_spec s) = String.length s + count_byte quote_byte s.
Proof.
  induction s as [|c s IH]; [reflexivity|].
  simpl. destruct (Ascii.eqb c quote_byte); simpl; rewrite IH; lia.
Qed.

Lemma count_byte_le (c : ascii) (s : string) : count_byte c s <= String.length s.
Proof.
  induction s as [|c' s IH]; simpl; [lia|].
  destruct (Ascii.eqb c' c); lia.
Qed.

Lemma escape_spec_app (a b : string) :
  escape_spec (a +:+ b) = escape_spec a +:+ escape_spec b.
Proof.
  induction a as [|c a IH]; [reflexivity|].
  rewrite append_cons. simpl. destruct (Ascii.eqb c quote_byte);
    by rewrite ?append_cons, IH.
Qed.

Lemma MakeSafe_app (a b : string) : MakeSafe (a +:+ b) = MakeSafe a +:+ MakeSafe b.
Proof. rewrite !MakeSafe_escape_spec. apply escape_spec_app. Qed.

Lemma MakeSafe_concat (l : list string) :
  String.concat "" (map MakeSafe l) = MakeSafe (String.concat "" l).
Proof.
  induction l as [|x l IH]; [reflexivity|].
  destruct l as [|y l]; [reflexivity|].
  change (String.concat "" (map MakeSafe (x :: y :: l)))
    with (MakeSafe x +:+ "" +:+ String.concat "" (map MakeSafe (y :: l))).
  change (String.concat "" (x :: y :: l))
    with (x +:+ "" +:+ String.concat "" (y :: l)).
  by rewrite IH, !append_nil_l, MakeSafe_app.
Qed.

(** X1. In the result of [MakeSafe] every double quote has a backslash
    right before it, whatever the input. *)
Theorem MakeSafe_quotes_escaped (s : string) : quotes_escaped (MakeSafe s) = true.
Proof. rewrite MakeSafe_escape_spec. apply quotes_escaped_escape_spec. Qed.

(** X2. [MakeSafe] lengthens a string by one byte for each double quote
    in it, so the result is at most twice as long: the capacity
    [2*len(s)] that [MakeSafe] reserves for its buffer is never
    exceeded. *)
Theorem MakeSafe_length (s : string) :
  String.length (MakeSafe s) = String.length s + count_byte quote_byte s /\
  String.length s <= String.length (MakeSafe s) <= 2 * String.length s.
Proof.
  rewrite MakeSafe_escape_spec, length_escape_spec.
  pose proof (count_byte_le quote_byte s). lia.
Qed.

(** X3. [WriteEscaped] only appends: the buffer it is given is a prefix
    of the buffer it leaves, followed by the escape of the string. Hence
    escaping a concatenation is concatenating the escapes. *)
Theorem WriteEscaped_appends (b : escBuf) (s t : string) :
  string_of_list_ascii (WriteEscaped b s) = string_of_list_ascii b +:+ MakeSafe s /\
  WriteEscaped (WriteEscaped b s) t = WriteEscaped b (s +:+ t) /\
  MakeSafe (s +:+ t) = MakeSafe s +:+ MakeSafe t.
Proof.
  split; [|split].
  - rewrite WriteEscaped_spec, string_of_list_ascii_app.
    by rewrite string_of_list_ascii_of_string, MakeSafe_escape_spec.
  - rewrite !WriteEscaped_spec, escape_spec_app, <- List.app_assoc. f_equal.
    generalize (escape_spec s) (escape_spec t). intros u v.
    induction u as [|c u IH]; [reflexivity|].
    rewrite append_cons. simpl. by rewrite IH.
  - apply MakeSafe_app.
Qed.

Lemma AddSafe_Add_buckets_aux (a : JArray) (format : string) (args : list string) :
  Key (AddSafe a format args) = Key a /\
  Vals (AddSafe a format args) = Vals a /\
  map string_of_list_ascii (ByteVals (AddSafe a format args))
  = map string_of_list_ascii (ByteVals a)
    ++ [MakeSafe (format +:+ String.concat "" args)].
Proof.
  split; [done|]. split; [done|].
  unfold AddSafe. simpl. rewrite map_app. simpl. do 2 f_equal.
  rewrite fold_WriteEscaped.
  change (string_of_list_ascii (WriteEscaped [] format)) with (MakeSafe format).
  by rewrite MakeSafe_concat, <- MakeSafe_app.
Qed.

(** X4. [AddSafe(format, args...)] adds one element to the escaped
    bucket: the escape of [format] followed directly by the arguments (no
    verb of the format is replaced and nothing separates the parts). It
    leaves the key and the raw bucket alone. [Add(val)] adds [val] as it is
    to the raw bucket and leaves the key and the escaped bucket alone. *)
Theorem AddSafe_Add_buckets (a : JArray) (format val : string) (args : list string) :
  (Key (AddSafe a format args) = Key a /\
   Vals (AddSafe a format args) = Vals a /\
   map string_of_list_ascii (ByteVals (AddSafe a format args))
   = map string_of_list_ascii (ByteVals a)
     ++ [MakeSafe (format +:+ String.concat "" args)]) /\
  (Key (Add a val) = Key a /\
   Vals (Add a val) = Vals a ++ [val] /\
   ByteVals (Add a val) = ByteVals a).
Proof.
  split; [apply AddSafe_Add_buckets_aux | done].
Qed.

(** ** The serializer *)

(** X6. Where [String] can panic. A pair and a group always have a
    string (a group prints its dictionary through [fmt], at any depth), and
    an array has what its own [String] gives. A dictionary panics when it
    is empty or when an array among its entries panics, and in no other
    case. With the [strings.Builder] [JArray.String] no array panics, so
    the empty dictionary is the only one that does; with the
    [JArray.String] that trims, the arrays that panic are those with no
    raw value. *)
Theorem String_panics (arr : JArray -> result string) :
  (forall o : JObject,
     (exists msg : string, JObject_String arr o = Panic msg)
     <-> exists a : JArray, o = ObjArray a /\ exists msg : string, arr a = Panic msg) /\
  (forall d : JDict,
     (exists msg : string, JDict_String arr d = Panic msg)
     <-> d = ∅ \/
         exists (k : string) (a : JArray) (msg : string),
           d !! k = Some (ObjArray a) /\ arr a = Panic msg) /\
  (forall d : JDict,
     (exists msg : string, JDict_String JArray_String d = Panic msg) <-> d = ∅) /\
  (forall d : JDict,
     (exists msg : string, JDict_String JArray_String_trim d = Panic msg)
     <-> d = ∅ \/
         exists (k : string) (a : JArray), d !! k = Some (ObjArray a) /\ Vals a = []).
Proof.
  assert (forall arr' (d : JDict),
            (exists msg : string, JDict_String arr' d = Panic msg)
            <-> d = ∅ \/
                exists (k : string) (a : JArray) (msg : string),
                  d !! k = Some (ObjArray a) /\ arr' a = Panic msg) as Hdict.
  { intros arr' d. split.
    - intros [msg H]. destruct (decide (d = ∅)) as [|Hne]; [by left|]. right.
      destruct (decide (map_Forall (fun _ o => array_ok arr' o = true) d))
        as [Hall|Hex].
      + rewrite JDict_String_nonempty in H; [done..|].
        intros k a Hk. specialize (Hall k _ Hk). simpl in Hall.
        destruct (arr' a); [eauto | done].
      + apply map_not_Forall in Hex; [|apply _].
        destruct Hex as (k & o & Hk & Ho).
        destruct o as [p|a|key dict]; try (by destruct Ho).
        simpl in Ho. destruct (arr' a) as [s|m] eqn:Ea; [by destruct Ho|].
        by exists k, a, m.
    - intros [->|(k & a & msg & Hk & Ha)].
      + eexists. apply JDict_String_empty.
      + assert (d <> ∅) as Hne.
        { intros ->. by rewrite lookup_empty in Hk. }
        rewrite JDict_String_in_order by done.
        assert (k ∈ JDict_keys d) as Hin by (apply elem_of_JDict_keys; eauto).
        revert Hin. generalize (JDict_keys d). intros keys.
        induction keys as [|k' keys IH]; [by intros ?%elem_of_nil|].
        intros [->|Hin]%elem_of_cons; simpl.
        * rewrite Hk. simpl. rewrite Ha. eauto.
        * destruct (d !! k') as [o|]; [|eauto].
          destruct (JObject_String arr' o) as [s|m]; [|eauto].
          rewrite bind_Ok. destruct (IH Hin) as [m Hm].
          destruct (entries_in_order (JObject_String arr') d keys) as [es|m'];
            [|eauto].
          rewrite bind_Ok in Hm. discriminate Hm. }
  split; [|split; [apply Hdict|split]].
  - intros o. rewrite JObject_String_cases. destruct o as [p|a|key dict].
    + split; [by intros [? ?] | by intros (a & ? & _)].
    + split; [intros [msg H]; eauto | by intros (a' & [= <-] & H)].
    + split; [by intros [? ?] | by intros (a & ? & _)].
  - intros d. rewrite Hdict. split; [|by left].
    intros [?|(k & a & msg & _ & H)]; [done|].
    by rewrite JArray_String_elements in H.
  - intros d. rewrite Hdict. split.
    + intros [?|(k & a & msg & Hk & H)]; [by left|]. right. exists k, a.
      split; [done|]. destruct (Vals a) eqn:E; [done|].
      by rewrite JArray_String_trim_nonempty in H by (by rewrite E).
    + intros [?|(k & a & Hk & Hv)]; [by left|]. right.
      exists k, a. eexists. split; [done|]. by apply JArray_String_trim_empty.
Qed.

(** The strings of a list of literals are all different. *)
Ltac NoDup_literals :=
  repeat (apply NoDup_cons; split;
          [rewrite ?elem_of_cons, elem_of_nil; intros H; by intuition discriminate|]);
  apply NoDup_nil_2.

Lemma NoDup_present_default_keys {V : Type} (objects : gmap string V) :
  NoDup (present_default_keys objects).
Proof.
  rewrite present_default_keys_filter. apply NoDup_filter. NoDup_literals.
Qed.

Lemma NoDup_JDict_keys {V : Type} (objects : gmap string V) :
  NoDup (JDict_keys objects).
Proof.
  unfold JDict_keys. apply NoDup_app. split; [apply NoDup_present_default_keys|].
  split.
  - intros k Hk Hk'.
    rewrite present_default_keys_filter in Hk.
    apply list_elem_of_filter in Hk as [_ Hk].
    apply elem_of_sort_Strings, elem_of_nonDefaultKeys in Hk' as [_ Hk'].
    by apply Hk'.
  - unfold sort_Strings. rewrite merge_sort_Permutation.
    apply NoDup_nonDefaultKeys.
Qed.

(** X7. The keys [JDict.String] writes are the keys of the dictionary,
    each exactly once: no entry is left out and none is written twice. *)
Theorem JDict_String_each_key_once (d : JDict) :
  NoDup (JDict_keys d) /\
  (forall k : string, k ∈ JDict_keys d <-> is_Some (d !! k)) /\
  length (JDict_keys d) = size d.
Proof.
  split; [apply NoDup_JDict_keys|]. split; [apply elem_of_JDict_keys|].
  rewrite <- length_map_to_list, <- (length_fmap fst (map_to_list d)).
  apply Permutation_length, NoDup_Permutation.
  - apply NoDup_JDict_keys.
  - apply NoDup_fst_map_to_list.
  - intros k. by rewrite elem_of_JDict_keys, <- elem_of_map_keys.
Qed.

Lemma JDict_keys_from_range (range : list string) (d : JDict) :
  range ≡ₚ map fst (map_to_list d) -> JDict_keys_from range d = JDict_keys d.
Proof.
  intros Hp. unfold JDict_keys_from, JDict_keys. f_equal.
  apply sort_Strings_order_irrelevant.
  unfold nonDefaultKeys_from, nonDefaultKeys. rewrite !fold_filter_acc.
  simpl. by rewrite Hp.
Qed.

(** X8. The string of a dictionary does not depend on the order in which
    [range] goes over the map: whatever enumeration of the keys the second
    loop meets, the sort makes the result the same. *)
Theorem JDict_String_range_order (range : list string) (d : JDict) :
  range ≡ₚ map fst (map_to_list d) ->
  JDict_keys_from range d = JDict_keys d /\
  forall arr : JArray -> result string,
    JDict_String_from arr range d = JDict_String arr d.
Proof.
  intros Hp. split; [by apply JDict_keys_from_range|]. intros arr.
  unfold JDict_String_from, JDict_String, JDict_String_with.
  by rewrite JDict_keys_from_range.
Qed.

Lemma JDict_String_range_order_witness :
  ["zebra"; "time"; "apple"; "error"; "level"] ≡ₚ map fst (map_to_list example_dict) /\
  JDict_keys_from ["zebra"; "time"; "apple"; "error"; "level"] example_dict
  = JDict_keys example_dict /\
  forall arr : JArray -> result string,
    JDict_String_from arr ["zebra"; "time"; "apple"; "error"; "level"] example_dict
    = JDict_String arr example_dict.
Proof.
  assert (["zebra"; "time"; "apple"; "error"; "level"]
          ≡ₚ map fst (map_to_list example_dict)) as Hp.
  { apply NoDup_Permutation.
    - NoDup_literals.
    - apply (NoDup_fst_map_to_list example_dict).
    - intros k. rewrite elem_of_map_keys, <- elem_of_JDict_keys.
      rewrite JDict_keys_example, !elem_of_cons, !elem_of_nil. tauto. }
  split; [exact Hp|].
  exact (JDict_String_range_order _ example_dict Hp).
Defined.

(** X9. [Set] on a dictionary is last-write-wins: after it the key of
    the element is among the keys written, once, its entry is the string
    of the element whatever was stored under that key before, and the
    entries of the other keys are as they were; this whatever the [String]
    of arrays is. [SetPair] is [Set] of the pair. *)
Theorem JDict_Set_last_write_wins
    (arr : JArray -> result string) (d : JDict) (elem : JObject) (key val : string) :
  let d' := JDict_Set d elem in
  d' !! GetKey elem = Some elem /\
  GetKey elem ∈ JDict_keys d' /\
  NoDup (JDict_keys d') /\
  entry_string arr d' (GetKey elem) = JObject_render arr elem /\
  JDict_String arr d'
  = (es ← entries_in_order (JObject_String arr) d' (JDict_keys d');
     Ok (OC +:+ String.concat ", " es +:+ CC)) /\
  (forall k : string, k <> GetKey elem ->
     d' !! k = d !! k /\
     entry_string arr d' k = entry_string arr d k /\
     (k ∈ JDict_keys d' <-> k ∈ JDict_keys d)) /\
  JDict_SetPair d key val = JDict_Set d (ObjPair (NewJPair key val)).
Proof.
  intros d'. subst d'. unfold JDict_Set.
  split; [by rewrite lookup_insert_eq|].
  split; [apply elem_of_JDict_keys; rewrite lookup_insert_eq; eauto|].
  split; [apply NoDup_JDict_keys|].
  split; [unfold entry_string; by rewrite lookup_insert_eq|].
  split; [apply JDict_String_in_order, insert_non_empty|].
  split; [|reflexivity].
  intros k Hk. unfold entry_string. rewrite !elem_of_JDict_keys.
  by rewrite lookup_insert_ne.
Qed.

Lemma JDict_Set_last_write_wins_witness :
  entry_string JArray_String_trim
    (JDict_Set example_dict (ObjPair (NewJPair "zebra" "stripes"))) "apple"
  = entry_string JArray_String_trim example_dict "apple".
Proof.
  pose proof (JDict_Set_last_write_wins JArray_String_trim example_dict
                (ObjPair (NewJPair "zebra" "stripes")) "" "")
    as (_ & _ & _ & _ & _ & H & _).
  apply (H "apple"). discriminate.
Defined.

(** X10. The [JArray.String] that trims the last separator panics on an
    array with no raw value, and otherwise writes the raw values alone:
    it never reads the escaped bucket, and it agrees with the other
    [JArray.String] exactly when that bucket is empty. *)
Theorem JArray_String_trim_behaviour (a : JArray) (bs : list escBuf) :
  (Vals a = [] ->
   JArray_String_trim a = Panic "runtime error: slice bounds out of range [:-2]") /\
  (Vals a <> [] ->
   JArray_String_trim a
   = Ok (quoted (Key a) +:+ ": " +:+ OB +:+
         String.concat ", " (map quoted (Vals a)) +:+ CB)) /\
  JArray_String_trim {| Key := Key a; Vals := Vals a; ByteVals := bs |}
  = JArray_String_trim a /\
  (Vals a <> [] -> (JArray_String_trim a = JArray_String a <-> ByteVals a = [])).
Proof.
  split; [apply JArray_String_trim_empty|].
  split; [apply JArray_String_trim_nonempty|].
  split; [reflexivity|].
  intros HV. split; [|by apply JArray_String_trim_agrees].
  rewrite JArray_String_trim_nonempty, JArray_String_elements by done.
  unfold JArray_elements. intros [= H].
  apply (inj (String.app _)), (inj (String.app _)), (inj (String.app _)) in H.
  destruct (ByteVals a) as [|b bs']; [done|].
  rewrite concat_app in H by (by destruct (Vals a)).
  apply (f_equal String.length) in H.
  rewrite !length_append in H. simpl in H. lia.
Qed.

Lemma JArray_String_trim_behaviour_witness :
  JArray_String_trim (NewJArray "array")
  = Panic "runtime error: slice bounds out of range [:-2]" /\
  JArray_String_trim (Add (NewJArray "array") "hello")
  = Ok (quoted "array" +:+ ": " +:+ OB +:+ quoted "hello" +:+ CB) /\
  JArray_String_trim (Add (NewJArray "array") "hello")
  = JArray_String (Add (NewJArray "array") "hello").
Proof.
  pose proof (JArray_String_trim_behaviour (NewJArray "array") []) as (H1 & _).
  pose proof (JArray_String_trim_behaviour (Add (NewJArray "array") "hello") [])
    as (_ & H2 & _ & H3).
  split; [exact (H1 eq_refl)|].
  assert (Vals (Add (NewJArray "array") "hello") <> []) as Hne by discriminate.
  split; [exact (H2 Hne)|].
  apply (H3 Hne). reflexivity.
Defined.

(** X23. The string of an object. A pair is its quoted key, a colon
    and its value between double quotes, written as it is (not escaped). A
    group is its quoted key, a colon and what [fmt] prints for its
    dictionary; when the dictionary is not empty and the arrays among its
    entries have a string, that is the entries between braces, to any
    depth. An array whose [String] returns begins with its quoted key, a
    colon and the opening bracket, with either [JArray.String]. *)
Theorem JObject_String_shape (arr : JArray -> result string) :
  (forall p : JPair,
     JObject_String arr (ObjPair p)
     = Ok (quoted (PairKey p) +:+ ": " +:+ quoted (PairVal p))) /\
  (forall (key : string) (dict : JDict),
     JObject_String arr (ObjGroup key dict)
     = Ok (quoted key +:+ ": " +:+ Sprint_Stringer (JDict_String arr dict)) /\
     (dict <> ∅ -> arrays_return arr dict ->
      JObject_String arr (ObjGroup key dict)
      = Ok (quoted key +:+ ": " +:+ OC +:+
            String.concat ", " (map (entry_string arr dict) (JDict_keys dict))
            +:+ CC))) /\
  (forall (a : JArray) (s : string),
     JArray_String a = Ok s \/ JArray_String_trim a = Ok s ->
     exists rest : string, s = quoted (Key a) +:+ ": " +:+ OB +:+ rest).
Proof.
  split; [|split].
  - intros p. reflexivity.
  - intros key dict.
    assert (JObject_String arr (ObjGroup key dict)
            = Ok (quoted key +:+ ": " +:+ Sprint_Stringer (JDict_String arr dict)))
      as H.
    { rewrite JObject_String_group. unfold JGroup_String.
      rewrite wrap_one, bind_Ok. unfold Sprintf_colon, quoted.
      by rewrite !append_assoc. }
    split; [exact H|]. intros Hne Harr. rewrite H.
    by rewrite JDict_String_nonempty.
  - intros a s [H|H].
    + rewrite JArray_String_elements in H. injection H as <-. eauto.
    + destruct (Vals a) eqn:E.
      * by rewrite JArray_String_trim_empty in H.
      * rewrite JArray_String_trim_nonempty in H by (by rewrite E).
        injection H as <-. eauto.
Qed.

Lemma JObject_String_shape_witness :
  JObject_String JArray_String_trim (ObjGroup "request" example_dict)
  = Ok (quoted "request" +:+ ": " +:+ OC +:+
        String.concat ", "
          (map (entry_string JArray_String_trim example_dict) (JDict_keys example_dict))
        +:+ CC) /\
  exists rest : string,
    quoted "array" +:+ ": " +:+ OB +:+ quoted "hello" +:+ CB
    = quoted (Key (Add (NewJArray "array") "hello")) +:+ ": " +:+ OB +:+ rest.
Proof.
  pose proof (JObject_String_shape JArray_String_trim) as (_ & Hg & Ha).
  split.
  - apply (proj2 (Hg "request" example_dict)); [exact example_dict_nonempty|].
    intros k a Hk. exfalso.
    revert Hk. unfold example_dict, JDict_SetPair, NewJDict. simpl.
    rewrite !lookup_insert, lookup_empty. repeat case_decide; discriminate.
  - apply (Ha (Add (NewJArray "array") "hello")). right.
    rewrite JArray_String_trim_nonempty by discriminate. reflexivity.
Defined.

(** ** The aggregator *)

Lemma with_objects_same (j : JLog) : with_objects (objects j) j = j.
Proof. by destruct j. Qed.

(** X11. What [Set] stores, [Get] and [Pop] give back under the key of
    the element; [Pop] leaves the map as it was before the [Set] when the
    key was new, and after it [Get] fails with "key not found". A second
    [Set] under the same key replaces the first. [SetPair] is [Set] of the
    pair. *)
Theorem Set_Get_Pop_round_trip (j : JLog) (elem : JObject) (key val : string) :
  let k := GetKey elem in
  Get (Set_ j elem) k = (Set_ j elem, inl elem) /\
  snd (Pop (Set_ j elem) k) = inl elem /\
  objects (fst (Pop (Set_ j elem) k)) = delete k (objects j) /\
  (objects j !! k = None -> fst (Pop (Set_ j elem) k) = j) /\
  snd (Get (fst (Pop (Set_ j elem) k)) k) = inr key_not_found /\
  (forall elem' : JObject, GetKey elem' = k -> Set_ (Set_ j elem') elem = Set_ j elem) /\
  SetPair j key val = Set_ j (ObjPair (NewJPair key val)).
Proof.
  intros k. subst k.
  assert (Pop (Set_ j elem) (GetKey elem)
          = (with_objects (delete (GetKey elem) (objects j)) j, inl elem)) as HPop.
  { unfold Pop, Set_. simpl. rewrite lookup_insert_eq. unfold with_objects. simpl.
    by rewrite delete_insert_eq. }
  split; [unfold Get, Set_; simpl; by rewrite lookup_insert_eq|].
  rewrite HPop. simpl.
  split; [done|]. split; [done|]. split; [|split; [|split]].
  - intros Hk. rewrite delete_id by done. apply with_objects_same.
  - unfold Get. simpl. by rewrite lookup_delete_eq.
  - intros elem' He. unfold Set_, with_objects. simpl.
    by rewrite He, insert_insert_eq.
  - reflexivity.
Qed.

Lemma Set_Get_Pop_round_trip_witness :
  fst (Pop (Set_ New (ObjPair (NewJPair "method" "GET"))) "method") = New /\
  Set_ (Set_ New (ObjPair (NewJPair "method" "GET"))) (ObjPair (NewJPair "method" "PUT"))
  = Set_ New (ObjPair (NewJPair "method" "PUT")).
Proof.
  pose proof (Set_Get_Pop_round_trip New (ObjPair (NewJPair "method" "GET")) "" "")
    as (_ & _ & _ & Hnew & _).
  pose proof (Set_Get_Pop_round_trip New (ObjPair (NewJPair "method" "PUT")) "" "")
    as (_ & _ & _ & _ & _ & Htwice & _).
  split; [exact (Hnew eq_refl)|].
  exact (Htwice (ObjPair (NewJPair "method" "GET")) eq_refl).
Defined.

(** X17. [Error] makes the level [ERROR], stores the escaped message as
    the pair under [error] and touches neither the messages nor any other
    key; a second [Error] replaces the first, so one error at most is
    kept. *)
Theorem Error_upserts (j : JLog) (e1 e2 : error) :
  level (Error j e2) = ERROR /\
  msgs (Error j e2) = msgs j /\
  Get (Error j e2) ERR_KEY
  = (Error j e2, inl (ObjPair (NewJPair ERR_KEY (MakeSafe e2)))) /\
  (forall k : string, k <> ERR_KEY -> objects (Error j e2) !! k = objects j !! k) /\
  Error (Error j e1) e2 = Error j e2.
Proof.
  split; [done|]. split; [done|]. split; [|split].
  - unfold Get, Error. simpl. by rewrite lookup_insert_eq.
  - intros k Hk. unfold Error. simpl. by rewrite lookup_insert_ne.
  - unfold Error, with_objects, with_level. simpl. by rewrite insert_insert_eq.
Qed.

Lemma Error_upserts_witness :
  objects (Error New "bad") !! "method" = objects New !! "method".
Proof.
  pose proof (Error_upserts New "" "bad") as (_ & _ & _ & H & _).
  apply H. discriminate.
Defined.

Lemma Log_fold_fields (objs : list JObject) (j : JLog) :
  let j' := fold_left
              (fun j obj => with_objects (<[GetKey obj := obj]> (objects j)) j) objs j in
  out j' = out j /\ msgs j' = msgs j /\ level j' = level j /\
  timeLayout j' = timeLayout j /\ once j' = once j /\
  forall k : string, objects j' !! k = last_with_key k objs (objects j !! k).
Proof.
  revert j. induction objs as [|obj objs IH]; intros j; [done|].
  simpl. destruct (IH (with_objects (<[GetKey obj := obj]> (objects j)) j))
    as (-> & -> & -> & -> & -> & Hk).
  repeat split. intros k. rewrite Hk. simpl. f_equal.
  case_decide as E.
  - by rewrite <- E, lookup_insert_eq.
  - by rewrite lookup_insert_ne.
Qed.

Lemma Log_assigns_and_upserts_aux
    (j : JLog) (f : LogFunc) (err : error) (args : list string)
    (lvl : string) (ms : list string) (objs : list JObject) :
  f err args = (lvl, ms, objs) ->
  level (Log j f err args) = lvl /\
  Key (msgs (Log j f err args)) = Key (msgs j) /\
  Vals (msgs (Log j f err args)) = Vals (msgs j) ++ ms /\
  ByteVals (msgs (Log j f err args)) = ByteVals (msgs j) /\
  (forall k : string,
     objects (Log j f err args) !! k = last_with_key k objs (objects j !! k)) /\
  out (Log j f err args) = out j /\
  timeLayout (Log j f err args) = timeLayout j /\
  once (Log j f err args) = once j.
Proof.
  intros Hf. unfold Log. rewrite Hf.
  match goal with |- context [fold_left _ objs ?j0] =>
    destruct (Log_fold_fields objs j0) as (Ho & Hm & Hl & Ht & Hon & Hk) end.
  rewrite Ho, Hm, Hl, Ht, Hon. repeat split. intros k. apply Hk.
Qed.

(** X18. [Log] takes the level its function answers as it is (it may
    lower an [ERROR]), appends the answered messages, unescaped, to the raw
    bucket, and stores the answered objects in order, each under its own
    key: under a key the last object with that key stays, and a key no
    object has keeps what it had. *)
Theorem Log_assigns_and_upserts
    (j : JLog) (f : LogFunc) (err : error) (args : list string)
    (lvl : string) (ms : list string) (objs : list JObject) :
  f err args = (lvl, ms, objs) ->
  let j' := Log j f err args in
  level j' = lvl /\
  Key (msgs j') = Key (msgs j) /\
  Vals (msgs j') = Vals (msgs j) ++ ms /\
  ByteVals (msgs j') = ByteVals (msgs j) /\
  (forall k : string, objects j' !! k = last_with_key k objs (objects j !! k)) /\
  out j' = out j /\ timeLayout j' = timeLayout j /\ once j' = once j.
Proof. intros Hf j'. by apply Log_assigns_and_upserts_aux. Qed.

Lemma Log_assigns_and_upserts_witness :
  level (Log (Error New "bad") example_LogFunc "e" []) = INFO /\
  Vals (msgs (Log (Error New "bad") example_LogFunc "e" [])) = ["logged"].
Proof.
  pose proof (Log_assigns_and_upserts (Error New "bad") example_LogFunc "e" []
                INFO ["logged"] [ObjPair (NewJPair "caller" "program/file:32")] eq_refl)
    as (Hl & _ & Hv & _).
  split; [exact Hl | exact Hv].
Defined.

(** X21. [Info] and [Warn] record the same message and touch no stored
    object. Without arguments the format goes, unescaped, to the end of
    the raw bucket; with arguments the escape of the format and the
    arguments, put end to end, goes to the end of the escaped bucket. The
    [strings.Builder] [JArray.String] then writes a message without
    arguments before every message with arguments recorded earlier, and a
    message with arguments last; the [JArray.String] that trims writes a
    message with arguments nowhere: the array serializes as before the
    call. *)
Theorem Info_Warn_message (j : JLog) (format : string) (args : list string) :
  let a' := msgs (Info j format args) in
  msgs (Warn j format args) = a' /\
  objects (Info j format args) = objects j /\
  objects (Warn j format args) = objects j /\
  Key a' = Key (msgs j) /\
  (args = [] ->
   Vals a' = Vals (msgs j) ++ [format] /\
   ByteVals a' = ByteVals (msgs j) /\
   JArray_String a'
   = Ok (quoted (Key (msgs j)) +:+ ": " +:+ OB +:+
         String.concat ", "
           (map quoted (Vals (msgs j)) ++ [quoted format]
            ++ map (fun b => quoted (string_of_list_ascii b)) (ByteVals (msgs j)))
         +:+ CB)) /\
  (args <> [] ->
   Vals a' = Vals (msgs j) /\
   map string_of_list_ascii (ByteVals a')
   = map string_of_list_ascii (ByteVals (msgs j))
     ++ [MakeSafe (format +:+ String.concat "" args)] /\
   JArray_String a'
   = Ok (quoted (Key (msgs j)) +:+ ": " +:+ OB +:+
         String.concat ", "
           (JArray_elements (msgs j)
            ++ [quoted (MakeSafe (format +:+ String.concat "" args))])
         +:+ CB) /\
   JArray_String_trim a' = JArray_String_trim (msgs j)).
Proof.
  intros a'. subst a'. split; [|split; [|split; [|split; [|split]]]].
  - unfold Warn, Info. destruct (decide (level j ≠ ERROR));
      by destruct (0 <? length args)%nat.
  - unfold Info. by destruct (0 <? length args)%nat.
  - unfold Warn. destruct (decide (level j ≠ ERROR));
      by destruct (0 <? length args)%nat.
  - unfold Info. by destruct (0 <? length args)%nat.
  - intros ->. unfold Info. simpl. split; [done|]. split; [done|].
    rewrite JArray_String_elements. unfold JArray_elements. simpl.
    by rewrite map_app, <- List.app_assoc.
  - intros Ha. unfold Info. destruct args as [|x args]; [done|].
    change (0 <? length (x :: args))%nat with true. cbv iota. simpl msgs.
    destruct (AddSafe_Add_buckets_aux (msgs j) format (x :: args)) as (HK & HV & HB).
    split; [exact HV|]. split; [exact HB|]. split; [|reflexivity].
    rewrite JArray_String_elements. unfold JArray_elements.
    rewrite HK, HV.
    rewrite <- (map_map string_of_list_ascii quoted), HB, map_app, map_map.
    by rewrite List.app_assoc.
Qed.

Lemma Info_Warn_message_witness :
  JArray_String (msgs (Info (Info New "user %v" ["bob"]) "hello" []))
  = Ok (quoted MSG_KEY +:+ ": " +:+ OB +:+
        String.concat ", " [quoted "hello"; quoted "user %vbob"] +:+ CB) /\
  JArray_String_trim (msgs (Info (Info New "hello" []) "user %v" ["bob"]))
  = JArray_String_trim (msgs (Info New "hello" [])).
Proof.
  pose proof (Info_Warn_message (Info New "user %v" ["bob"]) "hello" [])
    as (_ & _ & _ & _ & Hraw & _).
  pose proof (Info_Warn_message (Info New "hello" []) "user %v" ["bob"])
    as (_ & _ & _ & _ & _ & Hesc).
  split.
  - exact (proj2 (proj2 (Hraw eq_refl))).
  - apply Hesc. discriminate.
Defined.

(** ** Emission *)

Section Emission_facts.
Context {Instant : Type} (arr : JArray -> result string).
Context (Format : Instant -> string -> string).

Lemma Key_msgs_Log (j : JLog) (f : LogFunc) (err : error) (args : list string) :
  Key (msgs (Log j f err args)) = Key (msgs j).
Proof.
  destruct (f err args) as [[lvl ms] objs] eqn:Hf.
  by destruct (Log_assigns_and_upserts_aux j f err args lvl ms objs Hf) as (_ & -> & _).
Qed.

Lemma Key_msgs_step (j : JLog) (o : op) :
  Key (msgs (fst (step arr Format j o))) = Key (msgs j).
Proof.
  destruct o; simpl; try reflexivity.
  - unfold Get. by destruct (objects j !! k).
  - unfold GetT. destruct (objects j !! k); [|done]. by case_decide.
  - unfold Pop. by destruct (objects j !! k).
  - unfold Print, once_Do. by destruct (once j).
  - unfold PrettyPrint, once_Do. by destruct (once j).
  - unfold Info. by destruct (0 <? length args)%nat.
  - unfold Warn. destruct (decide (level j ≠ ERROR));
      by destruct (0 <? length args)%nat.
  - apply Key_msgs_Log.
Qed.

Lemma Key_msgs_run (j : JLog) (ops : list op) :
  Key (msgs (fst (run arr Format j ops))) = Key (msgs j).
Proof.
  revert j. induction ops as [|o ops IH]; intros j; [reflexivity|].
  rewrite run_cons. simpl fst. by rewrite IH, Key_msgs_step.
Qed.

(** X12. In every state the calls of the interface lead to from a new
    logger, the message array has the key [msgs] and every object is stored
    under its own key: what [Get], [Get[T]] or [Pop] returns for a key has
    that key. *)
Theorem reachable_invariants (ops : list op) (k : string) (T : KeyVal) (obj : JObject) :
  let j := fst (run arr Format New ops) in
  Key (msgs j) = MSG_KEY /\
  objects_wf (objects j) /\
  (snd (Get j k) = inl obj \/ snd (GetT T j k) = inl obj \/ snd (Pop j k) = inl obj ->
   GetKey obj = k).
Proof.
  intros j. assert (objects_wf (objects j)) as Hwf.
  { apply objects_wf_run, objects_wf_New. }
  split; [apply Key_msgs_run|]. split; [done|].
  unfold Get, GetT, Pop. destruct (objects j !! k) as [o|] eqn:Ho.
  - specialize (Hwf k o Ho). simpl in Hwf.
    case_decide; simpl; intros [E|[E|E]]; congruence.
  - simpl. intros [E|[E|E]]; discriminate.
Qed.

Lemma messages_step (j : JLog) (o : op) :
  let j' := fst (step arr Format j o) in
  Vals (msgs j) `prefix_of` Vals (msgs j') /\
  ByteVals (msgs j) `prefix_of` ByteVals (msgs j') /\
  length (Vals (msgs j')) + length (ByteVals (msgs j'))
  = length (Vals (msgs j)) + length (ByteVals (msgs j)) + messages_added o.
Proof.
  assert (forall a : JArray,
            Vals a `prefix_of` Vals a /\ ByteVals a `prefix_of` ByteVals a /\
            length (Vals a) + length (ByteVals a)
            = length (Vals a) + length (ByteVals a) + 0) as Hsame.
  { intros a. repeat split; [done..|lia]. }
  assert (forall (a : JArray) format args,
            let a' := if (0 <? length args)%nat then AddSafe a format args
                      else Add a format in
            Vals a `prefix_of` Vals a' /\ ByteVals a `prefix_of` ByteVals a' /\
            length (Vals a') + length (ByteVals a')
            = length (Vals a) + length (ByteVals a) + 1) as Hadd.
  { intros a format args.
    destruct (0 <? length args)%nat; simpl; repeat split;
      try done; try (by apply prefix_app_r);
      repeat rewrite ?length_app; simpl; unfold escBuf; lia. }
  destruct o; simpl; try apply Hsame.
  - unfold Get. destruct (objects j !! k); apply Hsame.
  - unfold GetT. destruct (objects j !! k); [|apply Hsame]. case_decide; apply Hsame.
  - unfold Pop. destruct (objects j !! k); apply Hsame.
  - unfold Print, once_Do. destruct (once j); apply Hsame.
  - unfold PrettyPrint, once_Do. destruct (once j); apply Hsame.
  - unfold Info. specialize (Hadd (msgs j) format args).
    by destruct (0 <? length args)%nat.
  - unfold Warn. specialize (Hadd (msgs j) format args).
    destruct (decide (level j ≠ ERROR)); by destruct (0 <? length args)%nat.
  - destruct (f err args) as [[lvl ms] objs] eqn:Hf.
    destruct (Log_assigns_and_upserts_aux j f err args lvl ms objs Hf)
      as (_ & _ & HV & HB & _).
    rewrite HV, HB. simpl.
    repeat split; [by apply prefix_app_r | done |].
    rewrite length_app. unfold escBuf. lia.
Qed.

(** X13. The message array only grows: along every sequence of calls
    the raw bucket and the escaped bucket of the start are prefixes of
    those of the end (no call removes, replaces or reorders a recorded
    message), and the number of recorded messages, the two buckets
    together, grows by one for each [Info] or [Warn] and by the number of
    messages each [Log] function answers. *)
Theorem messages_append_only (j : JLog) (ops : list op) :
  let j' := fst (run arr Format j ops) in
  Vals (msgs j) `prefix_of` Vals (msgs j') /\
  ByteVals (msgs j) `prefix_of` ByteVals (msgs j') /\
  length (Vals (msgs j')) + length (ByteVals (msgs j'))
  = length (Vals (msgs j)) + length (ByteVals (msgs j))
    + sum_list (map messages_added ops).
Proof.
  revert j. induction ops as [|o ops IH]; intros j.
  - simpl. repeat split; [done..|lia].
  - rewrite run_cons. simpl fst.
    destruct (messages_step j o) as (HV & HB & HL).
    destruct (IH (fst (step arr Format j o))) as (HV' & HB' & HL').
    repeat split; [by etrans | by etrans |].
    rewrite HL', HL. simpl. lia.
Qed.

(** X14. [Print] and [PrettyPrint] change nothing of the logger but the
    gate: the writer, the messages, the level, the layout and the objects
    are as before. So after a [Reset] a [Print] at the same instant writes
    the same bytes again. *)
Theorem Print_keeps_the_record (j : JLog) (now : Instant) :
  (forall j1 : JLog,
     j1 = fst (Print arr Format now j) \/ j1 = fst (PrettyPrint arr Format now j) ->
     out j1 = out j /\ msgs j1 = msgs j /\ level j1 = level j /\
     timeLayout j1 = timeLayout j /\ objects j1 = objects j) /\
  (once j = false ->
   snd (Print arr Format now (Reset (fst (Print arr Format now j))))
   = snd (Print arr Format now j)).
Proof.
  split.
  - intros j1 [-> | ->]; unfold Print, PrettyPrint, once_Do; by destruct (once j).
  - intros Hj. unfold Print at 2. rewrite once_Do_armed by done.
    unfold Print, once_Do. rewrite Hj. reflexivity.
Qed.
(** What [Print] finds under a key of its record, in a state where the
    objects sit under their own keys and the message array under [msgs]:
    the stored object if there is one, else the generated entry. *)
Lemma Print_dict_lookup (now : Instant) (j : JLog) (k : string) :
  objects_wf (objects j) -> Key (msgs j) = MSG_KEY ->
  Print_dict Format now j !! k
  = match objects j !! k with
    | Some o => Some o
    | None =>
        if decide (k = MSG_KEY) then Some (ObjArray (msgs j))
        else if decide (k = LEVEL_KEY)
             then Some (ObjPair (NewJPair LEVEL_KEY (level j)))
        else if decide (k = TIME_KEY)
             then Some (ObjPair (NewJPair TIME_KEY (Format now (timeLayout j))))
        else None
    end.
Proof.
  intros Hwf HK. rewrite Print_dict_union by done. rewrite HK, lookup_union.
  destruct (objects j !! k) as [o|].
  - by destruct (_ !! k).
  - rewrite (left_id None _).
    rewrite !lookup_insert, lookup_empty.
    repeat case_decide; congruence.
Qed.

Lemma Print_dict_is_Some (now : Instant) (j : JLog) (k : string) :
  objects_wf (objects j) -> Key (msgs j) = MSG_KEY ->
  is_Some (Print_dict Format now j !! k)
  <-> is_Some (objects j !! k) \/ k ∈ [TIME_KEY; LEVEL_KEY; MSG_KEY].
Proof.
  intros Hwf HK. rewrite Print_dict_lookup by done.
  rewrite !elem_of_cons, elem_of_nil.
  rewrite !is_Some_alt.
  destruct (objects j !! k) as [o|]; [tauto|].
  repeat case_decide; tauto.
Qed.

(** X16. The record [Print] builds, in every state the calls of the
    interface lead to: the [time] entry first, the [level] entry second,
    the [error] entry third exactly when an object is stored under
    [error], then, in ascending order, [msgs] and the keys of the other
    stored objects. *)
Theorem Print_record_layout (ops : list op) (now : Instant) :
  let j := fst (run arr Format New ops) in
  exists rest : list string,
    JDict_keys (Print_dict Format now j)
    = TIME_KEY :: LEVEL_KEY ::
      ((if decide (is_Some (objects j !! ERR_KEY)) then [ERR_KEY] else []) ++ rest) /\
    StronglySorted (strict String.le) rest /\
    MSG_KEY ∈ rest /\
    (forall k : string,
       k ∈ rest <->
       (k ∉ [TIME_KEY; LEVEL_KEY; ERR_KEY]) /\ (k = MSG_KEY \/ is_Some (objects j !! k))).
Proof.
  intros j.
  assert (objects_wf (objects j)) as Hwf by apply objects_wf_run, objects_wf_New.
  assert (Key (msgs j) = MSG_KEY) as HK by apply Key_msgs_run.
  assert (forall k : string,
            k ∈ sort_Strings (nonDefaultKeys (Print_dict Format now j)) <->
            (k ∉ [TIME_KEY; LEVEL_KEY; ERR_KEY]) /\
            (k = MSG_KEY \/ is_Some (objects j !! k)))
    as Hrest.
  { intros k. rewrite elem_of_sort_Strings, elem_of_nonDefaultKeys.
    rewrite Print_dict_is_Some by done. unfold default_keys.
    rewrite !elem_of_cons, !elem_of_nil. intuition. }
  exists (sort_Strings (nonDefaultKeys (Print_dict Format now j))).
  split; [|split; [|split]].
  - unfold JDict_keys. rewrite present_default_keys_filter, !filter_cons, filter_nil.
    rewrite decide_True.
    2:{ apply Print_dict_is_Some; [done..|]. right. apply list_elem_of_here. }
    rewrite decide_True.
    2:{ apply Print_dict_is_Some; [done..|]. right.
        apply list_elem_of_further, list_elem_of_here. }
    simpl. do 3 f_equal.
    destruct (decide (is_Some (objects j !! ERR_KEY))) as [He|He].
    + rewrite decide_True; [done|]. apply Print_dict_is_Some; auto.
    + rewrite decide_False; [done|]. rewrite Print_dict_is_Some by done.
      rewrite !elem_of_cons, elem_of_nil. intros [?|[?|[?|[?|[]]]]]; done.
  - apply sort_Strings_ascending, NoDup_nonDefaultKeys.
  - apply Hrest. split; [|by left].
    rewrite !elem_of_cons, elem_of_nil. intros [?|[?|[?|[]]]]; done.
  - apply Hrest.
Qed.

(** X15. [Print] hands the serialized record to the writer the last
    [SetOutput] gave: what it writes, or the panic of the serializer, is
    the same whatever the writer, and is one write of the same bytes when
    the arrays among the entries have a string. When no object is stored
    under [time],
    the time entry is the instant formatted with the layout the last
    [SetTime] gave, the other entries being the same whatever the
    layout. *)
Theorem Print_after_SetOutput_SetTime
    (ops : list op) (w : Writer) (layout : string) (now : Instant) :
  let j := fst (run arr Format New ops) in
  (once j = false -> Vals (msgs j) <> [] ->
   let r := JDict_String arr (Print_dict Format now j) in
   snd (Print arr Format now j) = Some (write_or_panic (out j) r) /\
   snd (Print arr Format now (SetOutput j w)) = Some (write_or_panic w r) /\
   (arrays_return arr (Print_dict Format now j) ->
    exists s : string,
      snd (Print arr Format now j) = Some [Written (out j) s] /\
      snd (Print arr Format now (SetOutput j w)) = Some [Written w s])) /\
  (objects j !! TIME_KEY = None ->
   Print_dict Format now (SetTime j layout) !! TIME_KEY
   = Some (ObjPair (NewJPair TIME_KEY (Format now layout)))) /\
  (forall k : string,
     k <> TIME_KEY ->
     Print_dict Format now (SetTime j layout) !! k = Print_dict Format now j !! k).
Proof.
  intros j.
  assert (objects_wf (objects j)) as Hwf by apply objects_wf_run, objects_wf_New.
  assert (Key (msgs j) = MSG_KEY) as HK by apply Key_msgs_run.
  split; [|split].
  - intros Hj Hv r. subst r. split; [|split].
    + by rewrite Print_effect.
    + by rewrite Print_effect.
    + intros Harr. eexists. split.
      * by rewrite Print_writes_once.
      * by rewrite Print_writes_once.
  - intros Ht. rewrite Print_dict_lookup by done. simpl. rewrite Ht.
    by repeat case_decide.
  - intros k Hk. rewrite !Print_dict_lookup by done. simpl.
    destruct (objects j !! k); [done|]. by repeat case_decide.
Qed.

(** X19. On an armed gate [PrettyPrint] always serializes a record and
    hands it to the pretty-printer, with or without messages. [Print]
    serializes the same record, with the same result, when the raw bucket
    has a message, and does nothing at all when it has none: only [Print]
    has the rule that a logger without messages stays silent. The record
    of [PrettyPrint] is never empty, so the serializer can only panic
    through an array among its entries: when those have a string,
    [PrettyPrint] renders a text and [Print] writes that text and a
    newline. *)
Theorem PrettyPrint_vs_Print (j : JLog) (now : Instant) :
  once j = false ->
  let r := JDict_String arr (PrettyPrint_dict Format now j) in
  snd (PrettyPrint arr Format now j) = Some (render_or_panic r) /\
  snd (Print arr Format now j)
  = Some (if decide (Vals (msgs j) = []) then [] else write_or_panic (out j) r) /\
  (Vals (msgs j) <> [] -> PrettyPrint_dict Format now j = Print_dict Format now j) /\
  PrettyPrint_dict Format now j <> ∅ /\
  (arrays_return arr (PrettyPrint_dict Format now j) ->
   exists s : string,
     snd (PrettyPrint arr Format now j) = Some [PrettyPrinted s] /\
     snd (Print arr Format now j)
     = Some (if decide (Vals (msgs j) = []) then []
             else [Written (out j) (s +:+ newline)])).
Proof.
  intros Hj r. subst r.
  assert (PrettyPrint_dict Format now j <> ∅) as Hne.
  { unfold PrettyPrint_dict. apply set_all_nonempty.
    destruct (0 <? length (Vals (msgs j)))%nat; apply insert_non_empty. }
  assert (snd (PrettyPrint arr Format now j)
          = Some (render_or_panic (JDict_String arr (PrettyPrint_dict Format now j))))
    as HPP.
  { unfold PrettyPrint. by rewrite once_Do_armed. }
  assert (snd (Print arr Format now j)
          = Some (if decide (Vals (msgs j) = []) then []
                  else write_or_panic (out j)
                         (JDict_String arr (PrettyPrint_dict Format now j)))) as HP.
  { unfold Print. rewrite once_Do_armed by done. cbn [snd].
    unfold PrettyPrint_dict.
    destruct (Vals (msgs j)) as [|v vs] eqn:Ev.
    - by rewrite decide_True.
    - by rewrite decide_False. }
  split; [exact HPP|]. split; [exact HP|]. split; [|split; [exact Hne|]].
  - intros Hv. unfold PrettyPrint_dict, Print_dict.
    by destruct (Vals (msgs j)).
  - intros Harr. rewrite HPP, HP.
    rewrite JDict_String_nonempty by done.
    eexists. split; [reflexivity|]. by destruct (decide (Vals (msgs j) = [])).
Qed.
(** X24. [Set] and [Pop] show in the record of [Print], in every state
    the calls of the interface lead to. After [Set] the record has the
    element under its key; after [Pop] of a key the record has under it
    what [Print] generates ([time], [level], [msgs]) or nothing (any other
    key, [error] too, the level staying what it was); the other keys of
    the record are untouched by both. *)
Theorem Set_Pop_in_the_record
    (ops : list op) (now : Instant) (elem : JObject) (k : string) :
  let j := fst (run arr Format New ops) in
  Print_dict Format now (Set_ j elem) !! GetKey elem = Some elem /\
  (forall k' : string,
     k' <> GetKey elem ->
     Print_dict Format now (Set_ j elem) !! k' = Print_dict Format now j !! k') /\
  Print_dict Format now (fst (Pop j k)) !! k
  = (if decide (k = MSG_KEY) then Some (ObjArray (msgs j))
     else if decide (k = LEVEL_KEY) then Some (ObjPair (NewJPair LEVEL_KEY (level j)))
     else if decide (k = TIME_KEY)
          then Some (ObjPair (NewJPair TIME_KEY (Format now (timeLayout j))))
     else None) /\
  (forall k' : string,
     k' <> k ->
     Print_dict Format now (fst (Pop j k)) !! k' = Print_dict Format now j !! k') /\
  level (fst (Pop j k)) = level j.
Proof.
  intros j.
  assert (objects_wf (objects j)) as Hwf by apply objects_wf_run, objects_wf_New.
  assert (Key (msgs j) = MSG_KEY) as HK by apply Key_msgs_run.
  assert (objects_wf (objects (Set_ j elem))) as HwfS.
  { by apply (objects_wf_step arr Format j (OpSet elem)). }
  assert (objects_wf (objects (fst (Pop j k)))) as HwfP.
  { by apply (objects_wf_step arr Format j (OpPop k)). }
  assert (msgs (fst (Pop j k)) = msgs j /\ level (fst (Pop j k)) = level j /\
          timeLayout (fst (Pop j k)) = timeLayout j /\
          objects (fst (Pop j k)) = delete k (objects j)) as (HPm & HPl & HPt & HPo).
  { unfold Pop. destruct (objects j !! k) eqn:E; simpl; [done|].
    by rewrite delete_id. }
  split; [|split; [|split; [|split]]].
  - rewrite Print_dict_lookup by done. simpl. by rewrite lookup_insert_eq.
  - intros k' Hk'. rewrite !Print_dict_lookup by done. simpl.
    by rewrite lookup_insert_ne.
  - rewrite Print_dict_lookup by (by rewrite ?HPm).
    by rewrite HPo, lookup_delete_eq, HPm, HPl, HPt.
  - intros k' Hk'. rewrite !Print_dict_lookup by (by rewrite ?HPm).
    by rewrite HPo, lookup_delete_ne, HPm, HPl, HPt.
  - done.
Qed.

End Emission_facts.

Lemma Print_keeps_the_record_witness :
  snd (Print JArray_String example_Format "now" (Reset (fst (Print JArray_String example_Format "now" example_log))))
  = snd (Print JArray_String example_Format "now" example_log).
Proof.
  exact (proj2 (Print_keeps_the_record JArray_String example_Format example_log "now") eq_refl).
Defined.

Lemma reachable_invariants_witness :
  GetKey (ObjPair (NewJPair TIME_KEY "2023-08-10 9:00:41.553pm -04")) = TIME_KEY.
Proof.
  pose proof (reachable_invariants JArray_String example_Format example_ops TIME_KEY TJPair
                (ObjPair (NewJPair TIME_KEY "2023-08-10 9:00:41.553pm -04")))
    as (_ & _ & H).
  apply H. left. reflexivity.
Defined.

Lemma Print_after_SetOutput_SetTime_witness :
  (snd (Print JArray_String example_Format "now" example_log)
   = Some (write_or_panic Stdout
             (JDict_String JArray_String (Print_dict example_Format "now" example_log)))
   /\ snd (Print JArray_String example_Format "now" (SetOutput example_log Stderr))
      = Some (write_or_panic Stderr
                (JDict_String JArray_String
                   (Print_dict example_Format "now" example_log)))) /\
  Print_dict example_Format "now" (SetTime (Info New "hello" []) "15:04") !! TIME_KEY
  = Some (ObjPair (NewJPair TIME_KEY "now")).
Proof.
  pose proof (Print_after_SetOutput_SetTime JArray_String example_Format example_ops
                Stderr "" "now") as (Hout & _).
  pose proof (Print_after_SetOutput_SetTime JArray_String example_Format
                [OpInfo "hello" []] Stdout "15:04" "now") as (_ & Htime & _).
  split.
  - destruct Hout as (H1 & H2 & _); [reflexivity | discriminate |].
    split; [exact H1 | exact H2].
  - apply Htime. reflexivity.
Defined.

Lemma PrettyPrint_vs_Print_witness :
  snd (PrettyPrint JArray_String_trim example_Format "now" New)
  = Some (render_or_panic
            (JDict_String JArray_String_trim (PrettyPrint_dict example_Format "now" New)))
  /\ snd (Print JArray_String_trim example_Format "now" New) = Some [].
Proof.
  pose proof (PrettyPrint_vs_Print JArray_String_trim example_Format New "now" eq_refl)
    as H.
  cbv zeta in H. destruct H as (HPP & HP & _).
  split; [exact HPP | exact HP].
Defined.

Lemma Set_Pop_in_the_record_witness :
  Print_dict example_Format "now" (fst (Pop example_log TIME_KEY)) !! LEVEL_KEY
  = Print_dict example_Format "now" example_log !! LEVEL_KEY.
Proof.
  pose proof (Set_Pop_in_the_record JArray_String example_Format example_ops "now"
                (ObjPair (NewJPair "" "")) TIME_KEY) as (_ & _ & _ & H & _).
  apply H. discriminate.
Defined.

(** ** Locking, continued *)

Module LockingMore.
Import Locking.


(** Those of them that run no code of the caller. *)
Lemma own_code_methods_guarded (m : method) :
  m ∈ [M_Get; M_Pop; M_SetPair; M_SetOutput; M_SetTime; M_Info; M_Warn] ->
  guarded false (body m) = true.
Proof.
  rewrite !elem_of_cons, elem_of_nil. intuition; subst; reflexivity.
Qed.

Lemma lookup_insert_is_Some' (l : list (list action)) (t t' : nat) (rest : list action) :
  is_Some (l !! t') -> is_Some (<[t := rest]> l !! t').
Proof.
  rewrite !lookup_lt_is_Some. by rewrite length_insert.
Qed.

Lemma holder_valid_step (c c' : config) (t : nat) :
  holder_valid c -> sched_step c t = Some c' -> holder_valid c'.
Proof.
  intros Hv Hs. unfold sched_step in Hs.
  destruct (threads c !! t) as [[|a rest]|] eqn:Ht; try discriminate Hs.
  assert (is_Some (<[t := rest]> (threads c) !! t)) as Ht'.
  { apply lookup_insert_is_Some'. by rewrite Ht. }
  destruct a.
  - destruct (holder c); [discriminate Hs|]. injection Hs as <-.
    intros t' [= <-]. exact Ht'.
  - case_decide; [|discriminate Hs]. injection Hs as <-. intros t' [=].
  - injection Hs as <-. intros t' Hh. simpl in *.
    by apply lookup_insert_is_Some', Hv.
  - injection Hs as <-. intros t' Hh. simpl in *.
    by apply lookup_insert_is_Some', Hv.
  - injection Hs as <-. intros t' Hh. simpl in *.
    by apply lookup_insert_is_Some', Hv.
  - injection Hs as <-. intros t' Hh. simpl in *.
    by apply lookup_insert_is_Some', Hv.
Qed.

Lemma holder_valid_run (c c' : config) (schedule : list nat) :
  holder_valid c -> sched_run c schedule = Some c' -> holder_valid c'.
Proof.
  revert c. induction schedule as [|t schedule IH]; intros c Hc Hr.
  - by injection Hr as <-.
  - simpl in Hr. destruct (sched_step c t) as [c1|] eqn:Hs; [|discriminate Hr].
    eapply IH; [|exact Hr]. by eapply holder_valid_step.
Qed.

Lemma holder_valid_start (ms : list method) : holder_valid (start ms).
Proof. intros t [=]. Qed.

(** With the invariant, a configuration with work left has a thread that
    can move: the holder of the mutex if there is one, any thread with
    work left if there is none. *)
Lemma progress (c : config) :
  inv c -> holder_valid c ->
  (exists t a acts, threads c !! t = Some (a :: acts)) ->
  exists t c', sched_step c t = Some c'.
Proof.
  intros (_ & _ & Hg) Hv (t & a & acts & Ht).
  destruct (holder c) as [t0|] eqn:Hh.
  - destruct (Hv t0 Hh) as [acts0 Ht0].
    pose proof (Hg t0 acts0 Ht0) as Hg0.
    rewrite bool_decide_eq_true_2 in Hg0 by done.
    exists t0. unfold sched_step. rewrite Ht0, ?Hh.
    destruct acts0 as [|a0 rest0]; [discriminate Hg0|].
    destruct a0; try discriminate Hg0; eauto.
    rewrite decide_True by done. eauto.
  - pose proof (Hg t _ Ht) as Hga.
    rewrite bool_decide_eq_false_2 in Hga by done.
    exists t. unfold sched_step. rewrite Ht, ?Hh.
    destruct a; try discriminate Hga. eauto.
Qed.

Lemma work_left_step (c c' : config) (t : nat) :
  sched_step c t = Some c' ->
  sum_list (map length (threads c')) + 1 = sum_list (map length (threads c)).
Proof.
  intros Hs. unfold sched_step in Hs.
  destruct (threads c !! t) as [[|a rest]|] eqn:Ht; try discriminate Hs.
  assert (threads c' = <[t := rest]> (threads c)) as ->.
  { destruct a; [destruct (holder c); [discriminate Hs|] | case_decide; [|discriminate Hs] | ..];
      by injection Hs as <-. }
  clear Hs. revert t Ht. generalize (threads c). intros l.
  induction l as [|x l IH]; intros [|t] Ht; try discriminate Ht; simpl in *.
  - injection Ht as ->. simpl. lia.
  - specialize (IH t Ht). lia.
Qed.

Lemma no_work_left (l : list (list action)) :
  sum_list (map length l) = 0 -> Forall (fun acts => acts = []) l.
Proof.
  induction l as [|x l IH]; simpl; [constructor|].
  intros H. constructor; [destruct x; [done|simpl in H; lia]|].
  apply IH. lia.
Qed.

Lemma work_left (l : list (list action)) :
  sum_list (map length l) <> 0 -> exists t a acts, l !! t = Some (a :: acts).
Proof.
  induction l as [|x l IH]; simpl; [done|].
  intros H. destruct x as [|a acts].
  - destruct IH as (t & a & acts & Ht); [simpl in H; lia|].
    by exists (S t), a, acts.
  - by exists 0, a, acts.
Qed.

Lemma completion (n : nat) (c : config) :
  inv c -> holder_valid c -> sum_list (map length (threads c)) = n ->
  exists schedule c',
    sched_run c schedule = Some c' /\ Forall (fun acts => acts = []) (threads c').
Proof.
  revert c. induction n as [|n IH]; intros c Hi Hv Hn.
  - exists [], c. split; [done|]. by apply no_work_left.
  - destruct (progress c Hi Hv) as (t & c1 & Hs).
    { apply work_left. lia. }
    pose proof (work_left_step c c1 t Hs) as Hw.
    destruct (IH c1) as (schedule & c' & Hr & Hdone).
    + by eapply LockingFacts.inv_step.
    + by eapply holder_valid_step.
    + lia.
    + exists (t :: schedule), c'. split; [|done]. simpl. by rewrite Hs.
Qed.



(** X22. Threads that each run one of the methods that take the lock
    and run no code of the caller while they hold it ([Get], [Pop],
    [SetPair], [SetOutput], [SetTime], [Info], [Warn]) never deadlock:
    from every configuration they can reach, a thread can move as long as
    one has work left, and some schedule takes all of them to their
    end. *)
Theorem locking_methods_complete (ms : list method) (schedule : list nat) (c : config) :
  Forall (fun m => m ∈ [M_Get; M_Pop; M_SetPair; M_SetOutput; M_SetTime;
                        M_Info; M_Warn]) ms ->
  sched_run (start ms) schedule = Some c ->
  ((exists t a acts, threads c !! t = Some (a :: acts)) ->
   exists t c', sched_step c t = Some c') /\
  exists more c',
    sched_run c more = Some c' /\ Forall (fun acts => acts = []) (threads c').
Proof.
  intros Hall Hr.
  assert (Forall (fun m => guarded false (body m) = true) ms) as Hg.
  { eapply Forall_impl; [exact Hall|]. apply own_code_methods_guarded. }
  pose proof (LockingFacts.inv_run _ _ _ (LockingFacts.inv_start ms Hg) Hr) as Hi.
  pose proof (holder_valid_run _ _ _ (holder_valid_start ms) Hr) as Hv.
  split; [by apply progress|]. by eapply completion.
Qed.

Lemma locking_methods_complete_witness :
  exists c : config,
    sched_run (start [M_Pop; M_Info]) [1; 1] = Some c /\
    exists more c',
      sched_run c more = Some c' /\ Forall (fun acts => acts = []) (threads c').
Proof.
  eexists. split; [reflexivity|].
  assert (Forall (fun m => m ∈ [M_Get; M_Pop; M_SetPair; M_SetOutput;
                                M_SetTime; M_Info; M_Warn])
            [M_Pop; M_Info]) as Hall.
  { repeat constructor; rewrite !elem_of_cons; tauto. }
  exact (proj2 (locking_methods_complete [M_Pop; M_Info] [1; 1] _ Hall eq_refl)).
Defined.

Lemma relocking_step (c c' : config) (pre post : list action) (t : nat) :
  Forall (fun a => a <> Lock /\ a <> Unlock) pre ->
  relocking c pre post -> sched_step c t = Some c' -> relocking c' pre post.
Proof.
  intros Hpre Hc Hs. unfold sched_step in Hs.
  destruct (threads c !! t) as [[|a rest]|] eqn:Ht; try discriminate Hs.
  destruct (decide (t = 0)) as [->|Hne].
  - destruct Hc as [H0|(Hh & pre' & Hsuf & H0)]; rewrite H0 in Ht.
    + injection Ht as <- <-.
      destruct (holder c); [discriminate Hs|]. injection Hs as <-.
      right. split; [done|]. exists pre. split; [done|].
      simpl. by rewrite list_lookup_insert_eq by (by eapply lookup_lt_Some).
    + destruct pre' as [|a' pre''].
      * injection Ht as <- <-. by rewrite Hh in Hs.
      * injection Ht as <- <-.
        assert (a' <> Lock /\ a' <> Unlock) as [HaL HaU].
        { rewrite Forall_forall in Hpre. apply Hpre.
          destruct Hsuf as [l ->]. rewrite elem_of_app, elem_of_cons. by right; left. }
        assert (c' = {| holder := holder c;
                        threads := <[0 := pre'' ++ Lock :: post]> (threads c);
                        trace := trace c ++ [(0, a')] |}) as ->.
        { destruct a'; try done; by injection Hs as <-. }
        right. split; [done|]. exists pre''. split.
        -- etrans; [|exact Hsuf]. by apply suffix_cons_r.
        -- simpl. by rewrite list_lookup_insert_eq by (by eapply lookup_lt_Some).
  - assert (threads c' !! 0 = threads c !! 0 /\
            (holder c = Some 0 -> holder c' = Some 0)) as [Ht0 Hh0].
    { destruct a.
      - destruct (holder c) eqn:Hh; [discriminate Hs|]. injection Hs as <-.
        simpl. split; [by rewrite list_lookup_insert_ne|done].
      - case_decide as Hh; [|discriminate Hs]. injection Hs as <-.
        simpl. split; [by rewrite list_lookup_insert_ne|]. intros E.
        rewrite E in Hh. by injection Hh as <-.
      - injection Hs as <-. simpl. split; [by rewrite list_lookup_insert_ne|done].
      - injection Hs as <-. simpl. split; [by rewrite list_lookup_insert_ne|done].
      - injection Hs as <-. simpl. split; [by rewrite list_lookup_insert_ne|done].
      - injection Hs as <-. simpl. split; [by rewrite list_lookup_insert_ne|done]. }
    destruct Hc as [H0|(Hh & pre' & Hsuf & H0)].
    + left. by rewrite Ht0.
    + right. split; [by apply Hh0|]. exists pre'. split; [done|]. by rewrite Ht0.
Qed.

Lemma relocking_run (c c' : config) (pre post : list action) (schedule : list nat) :
  Forall (fun a => a <> Lock /\ a <> Unlock) pre ->
  relocking c pre post -> sched_run c schedule = Some c' -> relocking c' pre post.
Proof.
  intros Hpre. revert c. induction schedule as [|t schedule IH]; intros c Hc Hr.
  - by injection Hr as <-.
  - simpl in Hr. destruct (sched_step c t) as [c1|] eqn:Hs; [|discriminate Hr].
    eapply IH; [|exact Hr]. by eapply relocking_step.
Qed.

(** The operations of [Set], [Error] and [Log] whose caller code calls a
    method that takes the lock: a [Lock], accesses, and a second
    [Lock]. *)
Lemma calling_relocks (m callee : method) :
  m ∈ [M_Set; M_Error; M_Log] ->
  callee ∈ [M_Get; M_Pop; M_SetPair; M_Set; M_SetOutput; M_SetTime;
            M_Info; M_Warn; M_Error; M_Log] ->
  exists pre post : list action,
    calling (body callee) (body m) = Lock :: pre ++ Lock :: post /\
    Forall (fun a => a <> Lock /\ a <> Unlock) pre /\
    length pre <= 1.
Proof.
  rewrite !elem_of_cons, !elem_of_nil.
  intros [->|[->|[->|[]]]] Hc.
  - exists []. decompose [or] Hc; try done; subst; eexists;
      (split; [reflexivity|]); (split; [constructor | simpl; lia]).
  - exists [Write F_level]. decompose [or] Hc; try done; subst; eexists;
      (split; [reflexivity|]); (split; [by repeat constructor | simpl; lia]).
  - exists []. decompose [or] Hc; try done; subst; eexists;
      (split; [reflexivity|]); (split; [constructor | simpl; lia]).
Qed.

(** X25. [j.mu] is not re-entrant. A thread that runs [Set], [Error] or
    [Log] with code of the caller (the [GetKey] of the element, the
    [Error] of the error, the [LogFunc]) that calls a method of the same
    logger that takes the lock never reaches the end of its method,
    whatever the other threads and the schedule; and within two of its own
    steps it holds the mutex and waits for it, unable to move. *)
Theorem reentrant_call_blocks
    (m callee : method) (others : list method) (schedule : list nat) (c : config) :
  m ∈ [M_Set; M_Error; M_Log] ->
  callee ∈ [M_Get; M_Pop; M_SetPair; M_Set; M_SetOutput; M_SetTime;
            M_Info; M_Warn; M_Error; M_Log] ->
  let c0 := {| holder := None;
               threads := calling (body callee) (body m) :: map body others;
               trace := [] |} in
  (sched_run c0 schedule = Some c ->
   exists (a : action) (acts : list action), threads c !! 0 = Some (a :: acts)) /\
  exists (n : nat) (c1 : config),
    n <= 2 /\
    sched_run c0 (replicate n 0) = Some c1 /\
    holder c1 = Some 0 /\
    sched_step c1 0 = None.
Proof.
  intros Hm Hcallee c0.
  destruct (calling_relocks m callee Hm Hcallee) as (pre & post & Hbody & Hpre & Hlen).
  split.
  - intros Hr.
    assert (relocking c0 pre post) as H0.
    { left. subst c0. simpl. by rewrite Hbody. }
    destruct (relocking_run _ _ _ _ _ Hpre H0 Hr) as [Hc|(_ & pre' & _ & Hc)].
    + eauto.
    + rewrite Hc. destruct pre'; simpl; eauto.
  - subst c0. rewrite Hbody.
    destruct pre as [|a [|a' pre]]; [| |simpl in Hlen; lia].
    + exists 1. eexists. split; [lia|]. split; [reflexivity|]. split; reflexivity.
    + apply Forall_cons in Hpre as [[HaL HaU] _].
      exists 2. eexists. split; [lia|].
      destruct a; try done; (split; [reflexivity|]); split; reflexivity.
Qed.

Lemma reentrant_call_blocks_witness :
  exists c1 : config,
    sched_run {| holder := None;
                 threads := [calling (body M_Info) (body M_Log); body M_Get];
                 trace := [] |} [0] = Some c1 /\
    (exists (a : action) (acts : list action), threads c1 !! 0 = Some (a :: acts)) /\
    holder c1 = Some 0 /\ sched_step c1 0 = None /\ sched_step c1 1 = None.
Proof.
  pose (c1 := {| holder := Some 0;
                 threads := [[Lock; Read F_msgs; Write F_msgs; Unlock; Write F_level;
                              Read F_msgs; Write F_msgs; Lock; Read F_msgs;
                              Write F_msgs; Unlock; Write F_objects; Unlock];
                             body M_Get];
                 trace := [(0, Lock)] |}).
  exists c1. split; [reflexivity|].
  assert (M_Log ∈ [M_Set; M_Error; M_Log]) as Hm.
  { rewrite !elem_of_cons; tauto. }
  assert (M_Info ∈ [M_Get; M_Pop; M_SetPair; M_Set; M_SetOutput; M_SetTime;
                    M_Info; M_Warn; M_Error; M_Log]) as Hc.
  { rewrite !elem_of_cons; tauto. }
  pose proof (reentrant_call_blocks M_Log M_Info [M_Get] [0] c1 Hm Hc) as [H _].
  split; [exact (H eq_refl)|]. repeat split; reflexivity.
Defined.

End LockingMore.
